(** * Round-robin chunk printer: [Multithreading/ThreadSynchronization.cpp]

    A shallow embedding of the [MyPrinter] class and of [main], followed by
    the properties of the rotation, the circular cursor, the chunked read,
    the start-up barrier and the lock.

    - C++ [int] values are integers of [Z] kept in the 32-bit two's
      complement range by [wrap_int]; [size_t] values are reduced modulo
      [2^64] by [to_size_t].  Mixed comparisons ([int] against
      [str.length()] or [thread_ids.size()]) convert the [int] operand to
      [size_t], as the usual arithmetic conversions do.
    - [std::thread::id] is an opaque token, here a natural number.
    - The threads are interleaved: a schedule is a list of actions, each the
      next atomic step of [main] or of one worker, and [exec] runs it. *)

From stdpp Require Import gmap strings list.
From Stdlib Require Import ZArith Lia Ascii String.

Local Open Scope Z_scope.

(** ** Machine integers *)

Module CInt.

Definition INT_MAX : Z := 2147483647.
Definition INT_MIN : Z := -2147483648.

(** Conversion of an integer to [int] (32-bit two's complement). *)
Definition wrap_int (z : Z) : Z := (z + 2147483648) mod 4294967296 - 2147483648.

(** Conversion of an integer to [size_t] (64-bit unsigned). *)
Definition to_size_t (z : Z) : Z := z mod 18446744073709551616.

Definition is_int (z : Z) : Prop := INT_MIN <= z <= INT_MAX.

End CInt.
Import CInt.

(** ** The class [MyPrinter] *)

(** [std::thread::id]. *)
Definition thread_id := nat.

Record MyPrinter := mkMyPrinter {
  str : string;                   (* input string to be printed *)
  char_count : Z;                 (* int: characters per print *)
  thread_count : Z;               (* int: total number of threads *)
  threads : list thread_id;       (* vector<thread>, by the id of each *)
  thread_ids : list thread_id;    (* vector<std::thread::id> *)
  unused_thread_id : Z;           (* int thread_id, never read *)
  allowed_thread : Z;             (* int: index of the thread allowed to print *)
  next_char : Z;                  (* int: index of the next character *)
  mutex_lock : option thread_id   (* the mutex, by its owner *)
}.

(** The constructor (lines 41-48): plain assignments, nothing is checked. *)
Definition MyPrinter_new (s : string) (c_count t_count : Z) : MyPrinter :=
  {| str := s; char_count := c_count; thread_count := t_count;
     threads := []; thread_ids := [];
     unused_thread_id := 0; allowed_thread := 0; next_char := 0;
     mutex_lock := None |}.

(** Assignments to the three fields that change after construction of the
    threads. *)
Definition set_next_char (v : Z) (p : MyPrinter) : MyPrinter :=
  {| str := str p; char_count := char_count p; thread_count := thread_count p;
     threads := threads p; thread_ids := thread_ids p;
     unused_thread_id := unused_thread_id p;
     allowed_thread := allowed_thread p; next_char := v;
     mutex_lock := mutex_lock p |}.

Definition set_allowed_thread (v : Z) (p : MyPrinter) : MyPrinter :=
  {| str := str p; char_count := char_count p; thread_count := thread_count p;
     threads := threads p; thread_ids := thread_ids p;
     unused_thread_id := unused_thread_id p;
     allowed_thread := v; next_char := next_char p;
     mutex_lock := mutex_lock p |}.

Definition set_mutex_lock (o : option thread_id) (p : MyPrinter) : MyPrinter :=
  {| str := str p; char_count := char_count p; thread_count := thread_count p;
     threads := threads p; thread_ids := thread_ids p;
     unused_thread_id := unused_thread_id p;
     allowed_thread := allowed_thread p; next_char := next_char p;
     mutex_lock := o |}.

(** [str.length()], a [size_t]. *)
Definition str_length (s : string) : Z := Z.of_nat (String.length s).

(** [thread_ids.size()], a [size_t]. *)
Definition ids_size (p : MyPrinter) : Z := Z.of_nat (List.length (thread_ids p)).

(** [str[i]] for an [int] index [i], converted to [size_t]: a character
    inside the string, the terminating null character at [str.length()],
    undefined ([None]) beyond. *)
Definition str_at (s : string) (i : Z) : option ascii :=
  let pos := to_size_t i in
  if pos <? str_length s then String.get (Z.to_nat pos) s
  else if pos =? str_length s then Some zero
  else None.

(** [getCurrentThreadId] (lines 54-62): position of [id] in [thread_ids],
    or -1. *)
Fixpoint find_thread_id (ids : list thread_id) (id : thread_id) (k : Z) : Z :=
  match ids with
  | [] => -1
  | e :: rest =>
      if decide (e = id) then k else find_thread_id rest id (wrap_int (k + 1))
  end.

Definition getCurrentThreadId (p : MyPrinter) (id : thread_id) : Z :=
  find_thread_id (thread_ids p) id 0.

(** The first loop of [print_chars] (lines 164-170), from index [i] with
    [printcount] characters printed so far.  Returns the final [printcount]
    and the indices read, in order. *)
Fixpoint first_loop (fuel : nat) (s : string) (cc : Z) (i printcount : Z)
    : Z * list Z :=
  match fuel with
  | O => (printcount, [])
  | S fuel' =>
      if (to_size_t i <? str_length s) && (printcount <? cc)
      then
        let '(pc, idx) :=
          first_loop fuel' s cc (wrap_int (i + 1)) (wrap_int (printcount + 1)) in
        (pc, i :: idx)
      else (printcount, [])
  end.

(** The wrap-around loop (lines 176-180): indices [0 .. char_count -
    printcount - 1], when [printcount < char_count]. *)
Definition second_loop (cc printcount : Z) : list Z :=
  if printcount <? cc
  then seqZ 0 (wrap_int (cc - printcount))
  else [].

(** Every index at which [print_chars] reads [str], in order. *)
Definition read_indices (p : MyPrinter) : list Z :=
  let '(pc, idx) :=
    first_loop (String.length (str p)) (str p) (char_count p) (next_char p) 0 in
  idx ++ second_loop (char_count p) pc.

(** What goes to [cout]. *)
Inductive event :=
| EvCreated (t : thread_id) (i : Z)
    (* "Thread <t> is <i>", line 75 *)
| EvUsage
    (* "Please provide 3 arguments - a string, char count & thread count" *)
| EvChunk (self : thread_id) (k : Z) (chunk : string).
    (* "ThreadId <k> : <chunk>", lines 153-185; [self] is the printing
       thread, kept to tell who acted *)

(** [print_chars] (lines 150-186), run by thread [self]: the line printed
    and the printer with [next_char] moved forward; [None] when a read is
    beyond the null terminator. *)
Definition print_chars (self : thread_id) (p : MyPrinter)
    : option (MyPrinter * event) :=
  cs ← mapM (str_at (str p)) (read_indices p);
  Some (set_next_char (wrap_int (next_char p + char_count p)) p,
        EvChunk self (getCurrentThreadId p self) (string_of_list_ascii cs)).


(** The turn index moves on (lines 131-133). *)
Definition advance_turn (p : MyPrinter) : MyPrinter :=
  let a := wrap_int (allowed_thread p + 1) in
  set_allowed_thread (if a =? thread_count p then 0 else a) p.

(** The cursor is brought back once (lines 136-137); the comparison and the
    subtraction are done in [size_t], the result is stored in an [int]. *)
Definition wrap_cursor (p : MyPrinter) : MyPrinter :=
  let n := to_size_t (next_char p) in
  if str_length (str p) <=? n
  then set_next_char (wrap_int (to_size_t (n - str_length (str p)))) p
  else p.

(** [thread_ids[allowed_thread]] (line 124); [None] when out of range. *)
Definition allowed_id (p : MyPrinter) : option thread_id :=
  thread_ids p !! Z.to_nat (to_size_t (allowed_thread p)).

(** The push_back of line 78. *)
Definition register (id : thread_id) (p : MyPrinter) : MyPrinter :=
  {| str := str p; char_count := char_count p; thread_count := thread_count p;
     threads := threads p; thread_ids := thread_ids p ++ [id];
     unused_thread_id := unused_thread_id p;
     allowed_thread := allowed_thread p; next_char := next_char p;
     mutex_lock := mutex_lock p |}.

(** The push_back of line 81. *)
Definition keep_thread (id : thread_id) (p : MyPrinter) : MyPrinter :=
  {| str := str p; char_count := char_count p; thread_count := thread_count p;
     threads := threads p ++ [id]; thread_ids := thread_ids p;
     unused_thread_id := unused_thread_id p;
     allowed_thread := allowed_thread p; next_char := next_char p;
     mutex_lock := mutex_lock p |}.

(** ** One turn, and turns in sequence *)

(** What a thread does between the end of [cv.wait] and [lock.unlock()]
    (lines 128-137). *)
Definition turn (self : thread_id) (p : MyPrinter) : option (MyPrinter * event) :=
  '(p1, ev) ← print_chars self p;
  Some (wrap_cursor (advance_turn p1), ev).

(** [k] turns one after the other, each taken by the thread that
    [cv.wait] lets through. *)
Fixpoint run_turns (k : nat) (p : MyPrinter) : option (MyPrinter * list event) :=
  match k with
  | O => Some (p, [])
  | S k' =>
      self ← allowed_id p;
      '(p1, ev) ← turn self p;
      '(p2, evs) ← run_turns k' p1;
      Some (p2, ev :: evs)
  end.

(** ** The threads *)

(** Where a worker is in [print_thread] (lines 106-145). *)
Inductive pc :=
| PBarrier   (* in waitforallthreadinit, line 111 *)
| PLock      (* about to take the mutex, line 117 *)
| PCheck     (* owns the mutex, evaluates the predicate of cv.wait, line 124 *)
| PWaiting   (* blocked in cv.wait, mutex released *)
| PPrint     (* about to call print_chars, line 128 *)
| PAdvance   (* about to move allowed_thread, lines 131-133 *)
| PWrap      (* about to wrap next_char, lines 136-137 *)
| PUnlock    (* about to unlock, line 140 *)
| PNotify.   (* about to notify_all, line 143 *)

(** Where the main thread is in [run] (lines 67-88). *)
Inductive main_pc :=
| MSpawn (i : Z)                      (* loop test of line 69 *)
| MPrint (i : Z) (t : thread_id)      (* thread t created, line 75 next *)
| MPushId (i : Z) (t : thread_id)     (* line 78 next *)
| MPushThread (i : Z) (t : thread_id) (* line 81 next, then i++ *)
| MJoin (i : Z)                       (* loop test of line 85 *)
| MReturned (status : Z).             (* main has returned *)

Record system := mkSystem {
  printer : MyPrinter;
  pcs : gmap thread_id pc;   (* the workers created so far *)
  at_main : main_pc;
  cout : list event
}.

Inductive action :=
| ASpawn (t : thread_id)   (* main creates a thread, which gets identity t *)
| AMain                    (* any other step of main *)
| AWorker (t : thread_id). (* the next step of worker t *)

Definition init_system (p : MyPrinter) : system :=
  {| printer := p; pcs := ∅; at_main := MSpawn 0; cout := [] |}.

Definition worker_at (t : thread_id) (c : pc) (p : MyPrinter) (s : system) : system :=
  {| printer := p; pcs := <[t := c]> (pcs s); at_main := at_main s; cout := cout s |}.

Definition main_at (m : main_pc) (p : MyPrinter) (s : system) : system :=
  {| printer := p; pcs := pcs s; at_main := m; cout := cout s |}.

Definition say (ev : event) (s : system) : system :=
  {| printer := printer s; pcs := pcs s; at_main := at_main s;
     cout := cout s ++ [ev] |}.

(** One step of worker [t] standing at [c].  [None]: the worker cannot move
    (the mutex is taken) or the behaviour is undefined. *)
Definition worker_step (t : thread_id) (c : pc) (s : system) : option system :=
  let p := printer s in
  match c with
  | PBarrier =>
      if to_size_t (thread_count p) =? ids_size p
      then Some (worker_at t PLock p s)
      else Some s
  | PLock | PWaiting =>
      match mutex_lock p with
      | None => Some (worker_at t PCheck (set_mutex_lock (Some t) p) s)
      | Some _ => None
      end
  | PCheck =>
      e ← allowed_id p;
      if decide (t = e)
      then Some (worker_at t PPrint p s)
      else Some (worker_at t PWaiting (set_mutex_lock None p) s)
  | PPrint =>
      '(p1, ev) ← print_chars t p;
      Some (say ev (worker_at t PAdvance p1 s))
  | PAdvance => Some (worker_at t PWrap (advance_turn p) s)
  | PWrap => Some (worker_at t PUnlock (wrap_cursor p) s)
  | PUnlock => Some (worker_at t PNotify (set_mutex_lock None p) s)
  | PNotify => Some (worker_at t PBarrier p s)
  end.

(** One step of the system.  A thread blocked in [join] never moves, for no
    worker returns from [print_thread]. *)
Definition step (a : action) (s : system) : option system :=
  let p := printer s in
  match a, at_main s with
  | ASpawn t, MSpawn i =>
      if (i <? thread_count p) && bool_decide (pcs s !! t = None)
      then Some (main_at (MPrint i t) p (worker_at t PBarrier p s))
      else None
  | ASpawn _, _ => None
  | AMain, MSpawn i =>
      if i <? thread_count p then None else Some (main_at (MJoin 0) p s)
  | AMain, MPrint i t => Some (say (EvCreated t i) (main_at (MPushId i t) p s))
  | AMain, MPushId i t => Some (main_at (MPushThread i t) (register t p) s)
  | AMain, MPushThread i t =>
      Some (main_at (MSpawn (wrap_int (i + 1))) (keep_thread t p) s)
  | AMain, MJoin i =>
      if i <? thread_count p then None else Some (main_at (MReturned 0) p s)
  | AMain, MReturned _ => None
  | AWorker t, _ =>
      c ← pcs s !! t;
      worker_step t c s
  end.

(** A schedule, run from [s]. *)
Fixpoint exec (sched : list action) (s : system) : option system :=
  match sched with
  | [] => Some s
  | a :: rest => s' ← step a s; exec rest s'
  end.

(** The lines of the turns, without those of [run]. *)
Definition is_chunk (ev : event) : bool :=
  match ev with EvChunk _ _ _ => true | _ => false end.

Definition chunks (evs : list event) : list event := List.filter is_chunk evs.


(** ** [main] *)

(** [atoi], as the C library defines it through [strtol]: white space is
    skipped, then an optional sign and the longest run of decimal digits are
    read; with no digit the value is 0.  The value is clamped to [long] and
    converted to [int]. *)
Definition is_space (c : ascii) : bool :=
  let n := nat_of_ascii c in
  (n =? 32)%nat || ((9 <=? n)%nat && (n <=? 13)%nat).

Definition digit_of (c : ascii) : option Z :=
  let n := nat_of_ascii c in
  if (48 <=? n)%nat && (n <=? 57)%nat then Some (Z.of_nat n - 48) else None.

Fixpoint skip_spaces (s : string) : string :=
  match s with
  | String c rest => if is_space c then skip_spaces rest else s
  | EmptyString => s
  end.

Fixpoint read_digits (s : string) (acc : Z) : Z :=
  match s with
  | String c rest =>
      match digit_of c with
      | Some d => read_digits rest (10 * acc + d)
      | None => acc
      end
  | EmptyString => acc
  end.

Definition clamp_long (z : Z) : Z :=
  Z.max (-9223372036854775808) (Z.min 9223372036854775807 z).

Definition atoi (s : string) : Z :=
  let v :=
    match skip_spaces s with
    | String c rest =>
        if Ascii.eqb c "-" then - read_digits rest 0
        else if Ascii.eqb c "+" then read_digits rest 0
        else read_digits (String c rest) 0
    | EmptyString => 0
    end in
  wrap_int (clamp_long v).

(** How [main] goes on after line 211: it has returned at once, or the
    printer exists and [run] begins. *)
Inductive main_result :=
| Exited (status : Z) (out : list event)
| Running (s : system).

(** [main] (lines 189-217) up to the call of [run]; [argv] has [argc]
    entries. *)
Definition main (argv : list string) : main_result :=
  match argv with
  | [_; a1; a2; a3] => Running (init_system (MyPrinter_new a1 (atoi a2) (atoi a3)))
  | _ => Exited 1 [EvUsage]
  end.

(** ** Vocabulary of the statements *)

(** The threads that own the mutex. *)
Definition holds_mutex (c : pc) : bool :=
  match c with
  | PCheck | PPrint | PAdvance | PWrap | PUnlock => true
  | _ => false
  end.

(** The critical section of a turn: the chunked read, the move of the cursor
    and the move of the turn index. *)
Definition in_turn (c : pc) : bool :=
  match c with
  | PPrint | PAdvance | PWrap => true
  | _ => false
  end.

(** What the turns read and write: the printer without its thread objects,
    its mutex and the unused field. *)
Definition shared (p : MyPrinter) : MyPrinter :=
  {| str := str p; char_count := char_count p; thread_count := thread_count p;
     threads := []; thread_ids := thread_ids p; unused_thread_id := 0;
     allowed_thread := allowed_thread p; next_char := next_char p;
     mutex_lock := None |}.

(** The same as it is when the first turn starts. *)
Definition at_start (p : MyPrinter) : MyPrinter :=
  set_next_char 0 (set_allowed_thread 0 (shared p)).

(** The lines [evs] are those of [length evs] complete turns, which leave
    the printer as [p]. *)
Definition turns_done (p : MyPrinter) (evs : list event) : Prop :=
  run_turns (List.length evs) (at_start p) = Some (shared p, evs).

(** As [turns_done], but the last turn, taken by [t], has only printed. *)
Definition turn_printed (t : thread_id) (p : MyPrinter) (evs : list event) : Prop :=
  ∃ q evs0 ev,
    evs = evs0 ++ [ev] ∧
    run_turns (List.length evs0) (at_start p) = Some (q, evs0) ∧
    allowed_id q = Some t ∧
    print_chars t q = Some (shared p, ev).

(** As [turn_printed], and the turn index has moved. *)
Definition turn_advanced (t : thread_id) (p : MyPrinter) (evs : list event) : Prop :=
  ∃ q evs0 ev p1,
    evs = evs0 ++ [ev] ∧
    run_turns (List.length evs0) (at_start p) = Some (q, evs0) ∧
    allowed_id q = Some t ∧
    print_chars t q = Some (p1, ev) ∧
    shared p = advance_turn p1.

(** The lines printed by the workers are those of the turns in sequence, up
    to where the owner of the mutex stands in its turn. *)
Definition turn_inv (s : system) : Prop :=
  let p := printer s in
  let evs := chunks (cout s) in
  match mutex_lock p with
  | None => turns_done p evs
  | Some t =>
      match pcs s !! t with
      | Some PPrint => turns_done p evs ∧ allowed_id p = Some t
      | Some PAdvance => turn_printed t p evs
      | Some PWrap => turn_advanced t p evs
      | _ => turns_done p evs
      end
  end.

(** Who printed a line. *)
Definition actor (ev : event) : option thread_id :=
  match ev with EvChunk self _ _ => Some self | _ => None end.

(** The mutex and the threads agree: its owner is a worker standing between
    lock and unlock, and no other worker stands there. *)
Definition lock_inv (s : system) : Prop :=
  (∀ t c, pcs s !! t = Some c →
          (holds_mutex c = true ↔ mutex_lock (printer s) = Some t)) ∧
  (∀ t, mutex_lock (printer s) = Some t → is_Some (pcs s !! t)).

(** How far [run] is, against the table: the identities pushed so far are
    distinct and belong to created workers, no worker is past the barrier
    and nothing has been printed by a worker until the table is full, and the
    turn index stays in range. *)
Definition barrier_inv (s : system) : Prop :=
  let p := printer s in
  let n := thread_count p in
  is_int n ∧
  NoDup (thread_ids p) ∧
  (∀ t, t ∈ thread_ids p → is_Some (pcs s !! t)) ∧
  (∀ t, is_Some (pcs s !! t) → 1 <= n) ∧
  match at_main s with
  | MSpawn i => ids_size p = i ∧ (i <= n ∨ i = 0)
  | MPrint i t | MPushId i t =>
      ids_size p = i ∧ i < n ∧ t ∉ thread_ids p ∧ is_Some (pcs s !! t)
  | MPushThread i t => ids_size p = i + 1 ∧ i < n
  | MJoin i => i = 0 ∧ (ids_size p = n ∨ (n <= 0 ∧ ids_size p = 0))
  | MReturned _ => n <= 0 ∧ ids_size p = 0
  end ∧
  (∀ t c, pcs s !! t = Some c → c ≠ PBarrier → ids_size p = n) ∧
  (ids_size p ≠ n →
     chunks (cout s) = [] ∧ allowed_thread p = 0 ∧ next_char p = 0) ∧
  0 <= allowed_thread p ∧ (allowed_thread p < n ∨ allowed_thread p = 0).

(** A printer whose table is complete and whose turn index is in range. *)
Definition table_ready (p : MyPrinter) : Prop :=
  is_int (thread_count p) ∧ NoDup (thread_ids p) ∧
  ids_size p = thread_count p ∧
  0 <= allowed_thread p < thread_count p.

(** The workers that printed the chunk lines [evs], in order. *)
Definition actors (evs : list event) : list thread_id := omap actor evs.

(** The fields set by the constructor and never assigned again. *)
Definition same_config (p q : MyPrinter) : Prop :=
  str q = str p ∧ char_count q = char_count p ∧ thread_count q = thread_count p.

(** The two vectors. *)
Definition same_tables (p q : MyPrinter) : Prop :=
  thread_ids q = thread_ids p ∧ threads q = threads p.

(** Quotient rounded up. *)
Definition ceil_div (m n : nat) : nat := ((m + n - 1) / n)%nat.

(** A table repeated [ceil (m / length tbl)] times and cut to [m] entries. *)
Definition repeat_truncate {A} (tbl : list A) (m : nat) : list A :=
  take m (mjoin (replicate (ceil_div m (List.length tbl)) tbl)).


(** Chunks no longer than the string, with room for [next_char +
    char_count] in an [int]; and a cursor inside the string. *)
Definition small_chunks (p : MyPrinter) : Prop :=
  1 <= char_count p <= str_length (str p) ∧
  str_length (str p) + char_count p <= INT_MAX.

Definition cursor_inside (p : MyPrinter) : Prop :=
  0 <= next_char p < str_length (str p).

(** A configuration that the specification calls invalid. *)
Definition invalid_configuration (s : string) (c n : Z) : Prop :=
  c <= 0 ∨ s = EmptyString ∨ n <= 0.

(** [main] has refused to go on: it returned a non-zero status. *)
Definition rejected (r : main_result) : Prop :=
  ∃ status out, r = Exited status out ∧ status ≠ 0.

(** A decimal numeral: an optional sign and one digit or more, nothing
    else. *)
Fixpoint all_digits (s : string) : bool :=
  match s with
  | String c rest => bool_decide (is_Some (digit_of c)) && all_digits rest
  | EmptyString => true
  end.

Definition decimal_numeral (s : string) : bool :=
  match s with
  | String c rest =>
      if Ascii.eqb c "-" || Ascii.eqb c "+"
      then negb (String.eqb rest EmptyString) && all_digits rest
      else all_digits s
  | EmptyString => false
  end.

(** What [atoi] looks at first: whether a digit follows the white space and
    the optional sign. *)
Definition first_is_digit (s : string) : bool :=
  match s with
  | String c _ => bool_decide (is_Some (digit_of c))
  | EmptyString => false
  end.

Definition leading_digit (s : string) : bool :=
  match skip_spaces s with
  | String c rest =>
      if Ascii.eqb c "-" || Ascii.eqb c "+"
      then first_is_digit rest
      else first_is_digit (String c rest)
  | EmptyString => false
  end.

(** [run] with no worker to create: nothing was created or printed, and
    [main] is on its way out. *)
Definition idle (p : MyPrinter) (s : system) : Prop :=
  printer s = p ∧ pcs s = ∅ ∧ cout s = [] ∧
  (at_main s = MSpawn 0 ∨ at_main s = MJoin 0 ∨ at_main s = MReturned 0).

(** The [c] characters of [s] from position [v] on, going round the string:
    what a circular read is meant to give. *)
Definition circular_read (s : string) (v c : Z) : list ascii :=
  (λ i, default zero (String.get (Z.to_nat ((v + i) mod str_length s)) s))
    <$> seqZ 0 c.




(** ** A run to try things on *)

(** Two workers, named 5 and 9 by the system, on "ABCDEFGH" by chunks of 3:
    [run] creates both, then each worker in turn goes once round its loop,
    twice over. *)
Definition one_round (t : thread_id) : list action := replicate 8 (AWorker t).

Definition demo_spawn : list action :=
  [ASpawn 5%nat; AMain; AMain; AMain; ASpawn 9%nat; AMain; AMain; AMain; AMain].

Definition demo_schedule : list action :=
  demo_spawn ++ one_round 5%nat ++ one_round 9%nat
             ++ one_round 5%nat ++ one_round 9%nat.

Definition demo_init : system := init_system (MyPrinter_new "ABCDEFGH" 3 2).

(** One worker, named 5, created and pushed; [main] then waits in [join]. *)
Definition spawn_one : list action := [ASpawn 5%nat; AMain; AMain; AMain; AMain].

(** The run stopped after worker 5 has printed its first chunk and before it
    moves the turn index; worker 9 is then waiting at the mutex. *)
Definition demo_midturn : list action :=
  demo_spawn ++ [AWorker 9%nat] ++ replicate 4 (AWorker 5%nat).

(** The printer of the scenario "ABCDEFGH" by chunks of 3 with two workers,
    when its table holds [t0] and [t1], the turn index is [a] and the cursor
    is [v]. *)
Definition scenario_at (t0 t1 : thread_id) (a v : Z) : MyPrinter :=
  {| str := "ABCDEFGH"; char_count := 3; thread_count := 2;
     threads := []; thread_ids := [t0; t1];
     unused_thread_id := 0; allowed_thread := a; next_char := v;
     mutex_lock := None |}.

(** The same when the first turn starts. *)
Definition scenario (t0 t1 : thread_id) : MyPrinter := scenario_at t0 t1 0 0.

(** The cursor before the first turn and after each of the first [k]. *)
Definition cursors (k : nat) (p : MyPrinter) : list (option Z) :=
  (λ j, (λ r, next_char (fst r)) <$> run_turns j p) <$> seq 0 (S k).

(** * Properties *)

(** ** Integers in range *)

Section cint_facts.

Lemma wrap_int_id z : is_int z -> wrap_int z = z.
Proof.
unfold is_int, INT_MIN, INT_MAX, wrap_int. intros H.
rewrite Z.mod_small by lia. lia.
Qed.

Lemma wrap_int_is_int z : is_int (wrap_int z).
Proof.
unfold is_int, INT_MIN, INT_MAX, wrap_int.
pose proof (Z.mod_pos_bound (z + 2147483648) 4294967296). lia.
Qed.

Lemma to_size_t_id z : 0 <= z < 18446744073709551616 -> to_size_t z = z.
Proof. intros H. unfold to_size_t. apply Z.mod_small. lia. Qed.

Lemma to_size_t_neg z : INT_MIN <= z < 0 → to_size_t z = z + 18446744073709551616.
Proof.
  unfold INT_MIN, to_size_t. intros H.
  symmetry. apply (Z.mod_unique_pos _ _ (-1)); lia.
Qed.

End cint_facts.

(** ** Steps, one by one *)

(** Case analysis of a defined step, down to the state it yields. *)
Ltac step_inv H :=
  simpl in H;
  repeat lazymatch type of H with
  | (?o ≫= _) = Some _ =>
      let E := fresh "E" in destruct o eqn:E; simpl in H; [|discriminate H]
  | (let '(_, _) := ?x in _) = Some _ => destruct x; simpl in H
  | (if ?b then _ else _) = Some _ =>
      let E := fresh "E" in destruct b eqn:E; simpl in H
  | match ?x with _ => _ end = Some _ =>
      let E := fresh "E" in destruct x eqn:E; simpl in H
  | None = Some _ => discriminate H
  | Some _ = Some _ => apply (inj Some) in H; subst
  end.

(** Boolean tests in the hypotheses, as propositions. *)
Ltac bool_hyps :=
  repeat match goal with
  | H : _ && _ = true |- _ => apply andb_prop in H; destruct H
  | H : bool_decide _ = true |- _ => apply bool_decide_eq_true in H
  | H : bool_decide _ = false |- _ => apply bool_decide_eq_false in H
  | H : (_ <? _) = true |- _ => apply Z.ltb_lt in H
  | H : (_ <? _) = false |- _ => apply Z.ltb_ge in H
  | H : (_ <=? _) = true |- _ => apply Z.leb_le in H
  | H : (_ <=? _) = false |- _ => apply Z.leb_gt in H
  | H : (_ =? _) = true |- _ => apply Z.eqb_eq in H
  | H : (_ =? _) = false |- _ => apply Z.eqb_neq in H
  end.

Section frame.

Lemma print_chars_inv self p q ev :
  print_chars self p = Some (q, ev) →
  q = set_next_char (wrap_int (next_char p + char_count p)) p ∧
  ∃ cs, mapM (str_at (str p)) (read_indices p) = Some cs ∧
        ev = EvChunk self (getCurrentThreadId p self) (string_of_list_ascii cs).
Proof.
  unfold print_chars. intros H.
  destruct (mapM _ _) as [cs|] eqn:E; simplify_eq/=. eauto.
Qed.

Lemma wrap_cursor_frame p :
  same_config p (wrap_cursor p) ∧ same_tables p (wrap_cursor p) ∧
  allowed_thread (wrap_cursor p) = allowed_thread p ∧
  mutex_lock (wrap_cursor p) = mutex_lock p.
Proof. unfold wrap_cursor; case_match; done. Qed.

Lemma wrap_cursor_mutex p : mutex_lock (wrap_cursor p) = mutex_lock p.
Proof. apply wrap_cursor_frame. Qed.

Lemma worker_step_frame t c s s' :
  worker_step t c s = Some s' →
  same_config (printer s) (printer s') ∧ same_tables (printer s) (printer s').
Proof.
  intros H. destruct c; step_inv H; try done.
  - apply print_chars_inv in E as [-> _]. done.
  - destruct (wrap_cursor_frame (printer s)) as (? & ? & _). done.
Qed.

Lemma step_same_config a s s' :
  step a s = Some s' → same_config (printer s) (printer s').
Proof.
  intros H. destruct a; unfold step in H; step_inv H; try done.
  by apply worker_step_frame in H as [? _].
Qed.

Lemma advance_turn_range p :
  is_int (thread_count p) → 0 <= allowed_thread p < thread_count p →
  allowed_thread (advance_turn p) = (allowed_thread p + 1) mod thread_count p.
Proof.
  intros Hn Ha. unfold advance_turn; simpl.
  rewrite wrap_int_id by (unfold is_int, INT_MIN, INT_MAX in *; lia).
  destruct (Z.eqb_spec (allowed_thread p + 1) (thread_count p)) as [->|Hne].
  - by rewrite Z_mod_same_full.
  - rewrite Z.mod_small; lia.
Qed.

End frame.

(** ** Turns in sequence *)

Section turns.

Lemma run_turns_snoc k p q evs t q' ev :
  run_turns k p = Some (q, evs) → allowed_id q = Some t →
  turn t q = Some (q', ev) →
  run_turns (S k) p = Some (q', evs ++ [ev]).
Proof.
  revert p evs. induction k as [|k IH]; intros p evs H Ha Ht.
  - simplify_eq/=. rewrite Ha; simpl. by rewrite Ht.
  - change (run_turns (S k) p) with
      (self ← allowed_id p; '(p1, ev) ← turn self p;
       '(p2, evs) ← run_turns k p1; Some (p2, ev :: evs)) in H.
    destruct (allowed_id p) as [self|] eqn:Es; [|done]. simpl in H.
    destruct (turn self p) as [[p1 ev1]|] eqn:E1; [|done]. simpl in H.
    destruct (run_turns k p1) as [[p2 evs2]|] eqn:E2; [|done].
    simplify_eq/=. rewrite Es; simpl. rewrite E1; simpl.
    by rewrite (IH _ _ E2 Ha Ht).
Qed.

Lemma print_chars_shared t p q ev :
  print_chars t p = Some (q, ev) → print_chars t (shared p) = Some (shared q, ev).
Proof.
  intros H. apply print_chars_inv in H as (-> & cs & Hcs & ->).
  unfold print_chars. change (read_indices (shared p)) with (read_indices p).
  simpl. by rewrite Hcs.
Qed.

Lemma advance_turn_shared p : shared (advance_turn p) = advance_turn (shared p).
Proof. done. Qed.

Lemma wrap_cursor_shared p : shared (wrap_cursor p) = wrap_cursor (shared p).
Proof. unfold wrap_cursor; simpl. by case_match. Qed.

Lemma at_start_eq p q :
  same_config p q → thread_ids q = thread_ids p → at_start q = at_start p.
Proof.
  intros (Hs & Hc & Hn) Hi. unfold at_start, shared; simpl.
  by rewrite Hs, Hc, Hn, Hi.
Qed.

Lemma shared_eq_at_start p :
  allowed_thread p = 0 → next_char p = 0 → shared p = at_start p.
Proof. intros Ha Hn. unfold at_start, shared; simpl. by rewrite Ha, Hn. Qed.

Lemma find_thread_id_lookup ids t n k0 :
  NoDup ids → ids !! n = Some t →
  is_int k0 → is_int (k0 + Z.of_nat (List.length ids)) →
  find_thread_id ids t k0 = k0 + Z.of_nat n.
Proof.
  revert n k0. induction ids as [|e ids IH]; intros n k0 Hnd Hn Hk0 Hk; [done|].
  apply NoDup_cons in Hnd as [Hne Hnd]. simpl.
  destruct n as [|n]; simpl in Hn.
  - simplify_eq. rewrite decide_True by done. lia.
  - rewrite decide_False.
    2:{ intros ->. apply Hne. by eapply list_elem_of_lookup_2. }
    simpl in Hk. unfold is_int, INT_MIN, INT_MAX in *.
    rewrite wrap_int_id by (unfold is_int, INT_MIN, INT_MAX; lia).
    rewrite (IH n) by (done || lia). lia.
Qed.

Lemma turn_inv_eq t p q ev :
  turn t p = Some (q, ev) →
  q = wrap_cursor (advance_turn
        (set_next_char (wrap_int (next_char p + char_count p)) p)) ∧
  ∃ cs, mapM (str_at (str p)) (read_indices p) = Some cs ∧
        ev = EvChunk t (getCurrentThreadId p t) (string_of_list_ascii cs).
Proof.
  unfold turn. intros H.
  destruct (print_chars t p) as [[p1 ev1]|] eqn:E; simplify_eq/=.
  apply print_chars_inv in E as (-> & cs & Hcs & ->). eauto.
Qed.

Lemma allowed_id_ready p :
  table_ready p →
  allowed_id p = thread_ids p !! Z.to_nat (allowed_thread p) ∧
  is_Some (allowed_id p).
Proof.
  intros (Hn & _ & Hsz & Ha). unfold allowed_id.
  rewrite to_size_t_id by (unfold is_int, INT_MAX in Hn; lia).
  split; [done|]. apply lookup_lt_is_Some. unfold ids_size in Hsz. lia.
Qed.

(** One turn of the thread whose turn it is. *)
Lemma turn_rotation t p q ev :
  table_ready p → allowed_id p = Some t → turn t p = Some (q, ev) →
  table_ready q ∧ same_config p q ∧ same_tables p q ∧
  allowed_thread q = (allowed_thread p + 1) mod thread_count p ∧
  ∃ chunk, ev = EvChunk t (allowed_thread p) chunk.
Proof.
  intros Hr Hal H. pose proof Hr as (Hn & Hnd & Hsz & Ha).
  apply turn_inv_eq in H as (-> & cs & _ & ->).
  set (p1 := set_next_char _ p).
  destruct (wrap_cursor_frame (advance_turn p1)) as (Hcfg & Htab & Hwa & _).
  assert (Hadv : allowed_thread (wrap_cursor (advance_turn p1)) =
                 (allowed_thread p + 1) mod thread_count p).
  { rewrite Hwa. by apply (advance_turn_range p1). }
  split_and!; try done.
  - destruct Hcfg as (? & ? & Hc), Htab as [Hi ?].
    unfold table_ready, ids_size. rewrite Hadv, Hc, Hi. simpl.
    split_and!; try done; apply Z.mod_pos_bound; lia.
  - exists (string_of_list_ascii cs). f_equal.
    apply allowed_id_ready in Hr as [Hr _]. rewrite Hr in Hal.
    unfold getCurrentThreadId.
    rewrite (find_thread_id_lookup _ _ _ _ Hnd Hal).
    + lia.
    + done.
    + unfold ids_size in Hsz. by rewrite Z.add_0_l, Hsz.
Qed.

(** [k] turns from a ready printer: the table and the configuration stay,
    the turn index has moved [k] places round, and the line of turn [j]
    was printed by the worker [j] places further in the table. *)
Lemma run_turns_rotation k p q evs :
  table_ready p → run_turns k p = Some (q, evs) →
  table_ready q ∧ same_config p q ∧ same_tables p q ∧
  allowed_thread q = (allowed_thread p + Z.of_nat k) mod thread_count p ∧
  List.length evs = k ∧
  ∀ j ev, evs !! j = Some ev →
    ∃ t chunk,
      ev = EvChunk t ((allowed_thread p + Z.of_nat j) mod thread_count p) chunk ∧
      thread_ids p !! Z.to_nat ((allowed_thread p + Z.of_nat j) mod thread_count p)
        = Some t.
Proof.
  revert p q evs. induction k as [|k IH]; intros p q evs Hr H.
  - simplify_eq/=. pose proof Hr as (_ & _ & _ & Ha).
    split_and!; try done.
    rewrite Z.add_0_r, Z.mod_small; [done|lia].
  - change (run_turns (S k) p) with
      (self ← allowed_id p; '(p1, ev) ← turn self p;
       '(p2, evs) ← run_turns k p1; Some (p2, ev :: evs)) in H.
    destruct (allowed_id p) as [self|] eqn:Es; [|done]. simpl in H.
    destruct (turn self p) as [[p1 ev1]|] eqn:E1; [|done]. simpl in H.
    destruct (run_turns k p1) as [[p2 evs2]|] eqn:E2; [|done].
    simplify_eq/=.
    destruct (turn_rotation _ _ _ _ Hr Es E1)
      as (Hr1 & (Hs1 & Hc1 & Hn1) & (Hi1 & Ht1) & Ha1 & chunk & ->).
    destruct (IH _ _ _ Hr1 E2)
      as (Hr2 & (Hs2 & Hc2 & Hn2) & (Hi2 & Ht2) & Ha2 & Hlen & Hevs).
    pose proof Hr as (Hn & _ & _ & Ha).
    split_and!; try done.
    + unfold same_config. split_and!; congruence.
    + unfold same_tables. split; congruence.
    + rewrite Ha2, Ha1, Hn1. rewrite Zplus_mod_idemp_l. f_equal. lia.
    + simpl. by rewrite Hlen.
    + intros [|j] ev Hev; simpl in Hev.
      * simplify_eq. rewrite Z.add_0_r, Z.mod_small by lia.
        exists self, chunk. split; [done|].
        apply allowed_id_ready in Hr as [Hr _]. by rewrite <- Hr.
      * destruct (Hevs _ _ Hev) as (t & ch & -> & Ht).
        rewrite Ha1, Hn1, Hi1 in *. rewrite Zplus_mod_idemp_l in *.
        replace (allowed_thread p + Z.of_nat (S j))
          with (allowed_thread p + 1 + Z.of_nat j) by lia.
        eauto.
Qed.

Lemma lookup_mjoin_replicate {A} (tbl : list A) r j :
  (j < r * List.length tbl)%nat →
  mjoin (replicate r tbl) !! j = tbl !! (j mod List.length tbl)%nat.
Proof.
  revert j. induction r as [|r IH]; intros j Hj; [lia|].
  simpl. destruct (decide (j < List.length tbl)%nat) as [Hlt|Hge].
  - rewrite lookup_app_l by done. by rewrite Nat.mod_small.
  - rewrite lookup_app_r by lia. rewrite IH by (simpl in Hj; lia).
    f_equal. 
    replace j with ((j - List.length tbl) + 1 * List.length tbl)%nat at 2 by lia.
    by rewrite Nat.Div0.mod_add.
Qed.

Lemma ceil_div_covers m n : (0 < n)%nat → (m <= ceil_div m n * n)%nat.
Proof.
  intros Hn. unfold ceil_div.
  pose proof (Nat.div_mod_eq (m + n - 1) n) as Hd.
  pose proof (Nat.mod_upper_bound (m + n - 1) n). nia.
Qed.

Lemma lookup_repeat_truncate {A} (tbl : list A) m j :
  (0 < List.length tbl)%nat → (j < m)%nat →
  repeat_truncate tbl m !! j = tbl !! (j mod List.length tbl)%nat.
Proof.
  intros Hn Hj. unfold repeat_truncate.
  rewrite lookup_take_lt by done.
  apply lookup_mjoin_replicate.
  pose proof (ceil_div_covers m _ Hn). lia.
Qed.

Lemma length_repeat_truncate {A} (tbl : list A) m :
  (0 < List.length tbl)%nat → List.length (repeat_truncate tbl m) = m.
Proof.
  intros Hn. unfold repeat_truncate. rewrite length_take.
  assert (Hlen : ∀ r, List.length (mjoin (replicate r tbl)) = (r * List.length tbl)%nat).
  { induction r as [|r IH]; [done|]. simpl. rewrite length_app, IH. lia. }
  rewrite Hlen. pose proof (ceil_div_covers m _ Hn). lia.
Qed.

Lemma actors_lookup evs j :
  (∀ i ev, evs !! i = Some ev → is_Some (actor ev)) →
  actors evs !! j = evs !! j ≫= actor.
Proof.
  revert j. induction evs as [|ev evs IH]; intros j Hall; [done|].
  destruct (Hall 0%nat ev eq_refl) as [t Ht].
  unfold actors; simpl. rewrite Ht. destruct j as [|j]; simpl; [done|].
  apply IH. intros i ev' Hi. by apply (Hall (S i)).
Qed.

(** From the first turn on, the workers act in the order of the table,
    again and again. *)
Lemma run_turns_actors k p q evs m :
  table_ready p → allowed_thread p = 0 → run_turns k p = Some (q, evs) →
  (m <= k)%nat →
  take m (actors evs) = repeat_truncate (thread_ids p) m.
Proof.
  intros Hr Ha0 H Hm.
  destruct (run_turns_rotation _ _ _ _ Hr H) as (_ & _ & _ & _ & Hlen & Hevs).
  destruct Hr as (Hn & _ & Hsz & Ha). unfold ids_size in Hsz.
  assert (Hpos : (0 < List.length (thread_ids p))%nat) by lia.
  assert (Hall : ∀ i ev, evs !! i = Some ev → is_Some (actor ev)).
  { intros i ev Hi. destruct (Hevs _ _ Hi) as (t & ch & -> & _). by eexists. }
  apply list_eq. intros j.
  destruct (decide (j < m)%nat) as [Hj|Hj].
  - rewrite lookup_take_lt by done. rewrite lookup_repeat_truncate by done.
    rewrite actors_lookup by done.
    destruct (lookup_lt_is_Some_2 evs j) as [ev Hev]; [lia|].
    rewrite Hev. destruct (Hevs _ _ Hev) as (t & ch & -> & Ht). simpl.
    rewrite Ha0, Z.add_0_l, <- Hsz, <- Nat2Z.inj_mod, Nat2Z.id in Ht.
    by rewrite Ht.
  - rewrite lookup_take_ge by lia. symmetry. apply lookup_ge_None.
    rewrite length_repeat_truncate by done. lia.
Qed.

Lemma run_turns_prefix k p q evs m :
  run_turns k p = Some (q, evs) → (m <= k)%nat →
  ∃ q', run_turns m p = Some (q', take m evs).
Proof.
  revert p q evs m. induction k as [|k IH]; intros p q evs m H Hm.
  - replace m with 0%nat by lia. simplify_eq/=. eauto.
  - destruct m as [|m]; [simpl; eauto|].
    change (run_turns (S k) p) with
      (self ← allowed_id p; '(p1, ev) ← turn self p;
       '(p2, evs) ← run_turns k p1; Some (p2, ev :: evs)) in H.
    destruct (allowed_id p) as [self|] eqn:Es; [|done]. simpl in H.
    destruct (turn self p) as [[p1 ev1]|] eqn:E1; [|done]. simpl in H.
    destruct (run_turns k p1) as [[p2 evs2]|] eqn:E2; [|done].
    simplify_eq/=. rewrite Es; simpl. rewrite E1; simpl.
    destruct (IH _ _ _ m E2) as [q' Hq']; [lia|].
    rewrite Hq'. simpl. eauto.
Qed.

Lemma turn_compute t p cs :
  mapM (str_at (str p)) (read_indices p) = Some cs →
  turn t p
  = Some (wrap_cursor (advance_turn
            (set_next_char (wrap_int (next_char p + char_count p)) p)),
          EvChunk t (getCurrentThreadId p t) (string_of_list_ascii cs)).
Proof. intros H. unfold turn, print_chars. by rewrite H. Qed.

Lemma scenario_turn_first t0 t1 v cs :
  mapM (str_at "ABCDEFGH") (read_indices (scenario_at t0 t1 0 v)) = Some cs →
  turn t0 (scenario_at t0 t1 0 v)
  = Some (wrap_cursor (scenario_at t0 t1 1 (wrap_int (v + 3))),
          EvChunk t0 0 (string_of_list_ascii cs)).
Proof.
  intros H. rewrite (turn_compute _ _ cs) by done.
  unfold getCurrentThreadId; simpl. by rewrite decide_True.
Qed.

Lemma scenario_turn_second t0 t1 v cs :
  t0 ≠ t1 →
  mapM (str_at "ABCDEFGH") (read_indices (scenario_at t0 t1 1 v)) = Some cs →
  turn t1 (scenario_at t0 t1 1 v)
  = Some (wrap_cursor (scenario_at t0 t1 0 (wrap_int (v + 3))),
          EvChunk t1 1 (string_of_list_ascii cs)).
Proof.
  intros Hne H. rewrite (turn_compute _ _ cs) by done.
  unfold getCurrentThreadId; simpl.
  by rewrite decide_False, decide_True.
Qed.

Lemma scenario_turns t0 t1 :
  t0 ≠ t1 →
  run_turns 4 (scenario t0 t1)
  = Some (scenario_at t0 t1 0 4,
          [EvChunk t0 0 "ABC"; EvChunk t1 1 "DEF";
           EvChunk t0 0 "GHA"; EvChunk t1 1 "BCD"]) ∧
  cursors 4 (scenario t0 t1) = [Some 0; Some 3; Some 6; Some 1; Some 4].
Proof.
  intros Hne.
  assert (T1 : turn t0 (scenario_at t0 t1 0 0)
               = Some (scenario_at t0 t1 1 3, EvChunk t0 0 "ABC")).
  { by rewrite (scenario_turn_first _ _ _ ["A"; "B"; "C"]%char). }
  assert (T2 : turn t1 (scenario_at t0 t1 1 3)
               = Some (scenario_at t0 t1 0 6, EvChunk t1 1 "DEF")).
  { by rewrite (scenario_turn_second _ _ _ ["D"; "E"; "F"]%char). }
  assert (T3 : turn t0 (scenario_at t0 t1 0 6)
               = Some (scenario_at t0 t1 1 1, EvChunk t0 0 "GHA")).
  { by rewrite (scenario_turn_first _ _ _ ["G"; "H"; "A"]%char). }
  assert (T4 : turn t1 (scenario_at t0 t1 1 1)
               = Some (scenario_at t0 t1 0 4, EvChunk t1 1 "BCD")).
  { by rewrite (scenario_turn_second _ _ _ ["B"; "C"; "D"]%char). }
  assert (A0 : ∀ v, allowed_id (scenario_at t0 t1 0 v) = Some t0) by done.
  assert (A1 : ∀ v, allowed_id (scenario_at t0 t1 1 v) = Some t1) by done.
  assert (R0 : run_turns 0 (scenario t0 t1) = Some (scenario_at t0 t1 0 0, []))
    by done.
  pose proof (run_turns_snoc _ _ _ _ _ _ _ R0 (A0 _) T1) as R1.
  pose proof (run_turns_snoc _ _ _ _ _ _ _ R1 (A1 _) T2) as R2.
  pose proof (run_turns_snoc _ _ _ _ _ _ _ R2 (A0 _) T3) as R3.
  pose proof (run_turns_snoc _ _ _ _ _ _ _ R3 (A1 _) T4) as R4.
  split; [exact R4|].
  unfold cursors. change (seq 0 5) with [0; 1; 2; 3; 4]%nat.
  rewrite !fmap_cons, fmap_nil. by rewrite R0, R1, R2, R3, R4.
Qed.

End turns.

(** ** The chunked read and the cursor, for chunks no longer than the string *)

Section small_chunks.

(** The first loop ends by its own test: with [str.length()] iterations
    allowed, allowing more changes nothing. *)
Lemma first_loop_fuel f1 f2 s cc i pc :
  is_int i → str_length s <= INT_MAX →
  (0 <= i → str_length s - i <= Z.of_nat f1) →
  (0 <= i → str_length s - i <= Z.of_nat f2) →
  first_loop f1 s cc i pc = first_loop f2 s cc i pc.
Proof.
  intros Hi HL. revert f2 i pc Hi.
  assert (Htest : ∀ i, is_int i → to_size_t i < str_length s →
                       0 <= i < str_length s).
  { intros i Hi Hlt. unfold is_int, INT_MIN, INT_MAX in *.
    destruct (decide (0 <= i)).
    - rewrite to_size_t_id in Hlt by lia. lia.
    - rewrite to_size_t_neg in Hlt by (unfold INT_MIN; lia). lia. }
  induction f1 as [|f1 IH]; intros f2 i pc Hi H1 H2.
  - destruct f2 as [|f2]; [done|]. simpl.
    destruct (Z.ltb_spec (to_size_t i) (str_length s)) as [Hlt|_]; [|done].
    apply Htest in Hlt; [|done]. lia.
  - simpl.
    destruct (Z.ltb_spec (to_size_t i) (str_length s)) as [Hlt|Hge]; simpl.
    2:{ destruct f2 as [|f2]; [done|]. simpl.
        by destruct (Z.ltb_spec (to_size_t i) (str_length s)); [lia|]. }
    apply Htest in Hlt as Hin; [|done].
    destruct f2 as [|f2]; [lia|]. simpl.
    destruct (Z.ltb_spec (to_size_t i) (str_length s)); [|lia]. simpl.
    destruct (pc <? cc); [|done].
    assert (Hw : wrap_int (i + 1) = i + 1).
    { apply wrap_int_id. unfold is_int, INT_MIN, INT_MAX in *. lia. }
    rewrite Hw.
    rewrite (IH f2); [done| |lia|lia].
    unfold is_int, INT_MIN, INT_MAX in *. lia.
Qed.

Lemma first_loop_spec fuel s cc i pc :
  0 <= i <= str_length s → 0 <= pc <= cc → is_int cc →
  str_length s <= INT_MAX →
  str_length s - i <= Z.of_nat fuel →
  first_loop fuel s cc i pc
  = (pc + Z.min (str_length s - i) (cc - pc),
     seqZ i (Z.min (str_length s - i) (cc - pc))).
Proof.
  revert i pc. induction fuel as [|fuel IH]; intros i pc Hi Hpc Hcc HL Hfuel.
  - simpl. replace (Z.min _ _) with 0 by lia. by rewrite Z.add_0_r.
  - simpl. unfold is_int, INT_MIN, INT_MAX in *.
    rewrite to_size_t_id by lia.
    destruct (Z.ltb_spec i (str_length s)) as [Hlt|Hge]; simpl.
    2:{ replace (Z.min _ _) with 0 by lia. by rewrite Z.add_0_r. }
    destruct (Z.ltb_spec pc cc) as [Hlt'|Hge]; simpl.
    2:{ replace (Z.min _ _) with 0 by lia. by rewrite Z.add_0_r. }
    rewrite !wrap_int_id by (unfold is_int, INT_MIN, INT_MAX; lia).
    rewrite IH by lia.
    rewrite (seqZ_cons i) by lia. f_equal; [lia|].
    f_equal. f_equal; lia.
Qed.

(** The indices read are the [char_count] places from the cursor on, round
    the string. *)
Lemma read_indices_small p :
  small_chunks p → cursor_inside p →
  let k := Z.min (str_length (str p) - next_char p) (char_count p) in
  read_indices p = seqZ (next_char p) k ++ seqZ 0 (char_count p - k).
Proof.
  intros [Hc Hmax] Hv k. unfold read_indices, cursor_inside in *.
  rewrite first_loop_spec; try lia.
  2:{ unfold is_int, INT_MIN, INT_MAX in *. lia. }
  2:{ unfold str_length. lia. }
  rewrite Z.add_0_l, Z.sub_0_r. fold k. f_equal.
  unfold second_loop. destruct (Z.ltb_spec k (char_count p)) as [Hlt|Hge].
  - rewrite wrap_int_id; [done|]. unfold is_int, INT_MIN, INT_MAX in *. lia.
  - by replace (char_count p - k) with 0 by lia.
Qed.

Lemma read_indices_in_range p i :
  small_chunks p → cursor_inside p → i ∈ read_indices p →
  0 <= i < str_length (str p).
Proof.
  intros Hs Hv Hi. rewrite read_indices_small in Hi by done.
  destruct Hs as [Hc Hmax]. unfold cursor_inside in Hv.
  apply elem_of_app in Hi as [Hi|Hi]; apply elem_of_seqZ in Hi; lia.
Qed.

Lemma get_is_Some n s : (n < String.length s)%nat → is_Some (String.get n s).
Proof.
  revert n. induction s as [|c s IH]; intros n Hn; simpl in Hn; [lia|].
  destruct n as [|n]; simpl; [by eexists|]. apply IH. lia.
Qed.

Lemma str_at_is_Some s i :
  str_length s <= INT_MAX → 0 <= i < str_length s → is_Some (str_at s i).
Proof.
  intros HL Hi. unfold str_at. unfold INT_MAX in HL.
  rewrite to_size_t_id by lia.
  destruct (Z.ltb_spec i (str_length s)); [|lia].
  apply get_is_Some. unfold str_length in Hi. lia.
Qed.

(** No read is beyond the string: [print_chars] is defined. *)
Lemma print_chars_small t p :
  small_chunks p → cursor_inside p → is_Some (print_chars t p).
Proof.
  intros Hs Hv. unfold print_chars.
  destruct (mapM (str_at (str p)) (read_indices p)) as [cs|] eqn:E;
    [by eexists|].
  assert (Hall : is_Some (mapM (str_at (str p)) (read_indices p))).
  { apply mapM_is_Some. apply Forall_forall. intros i Hi.
    apply str_at_is_Some; [destruct Hs; lia|].
    by apply read_indices_in_range. }
  rewrite E in Hall. by destruct Hall.
Qed.

(** A turn is defined and leaves the cursor at [(next_char + char_count) mod
    str.length()], inside the string. *)
Lemma turn_small t p :
  small_chunks p → cursor_inside p →
  ∃ q ev, turn t p = Some (q, ev) ∧
          next_char q = (next_char p + char_count p) mod str_length (str p) ∧
          small_chunks q ∧ cursor_inside q.
Proof.
  intros Hs Hv. destruct (print_chars_small t p Hs Hv) as [[p1 ev] Hpr].
  exists (wrap_cursor (advance_turn p1)), ev.
  split; [unfold turn; by rewrite Hpr|].
  apply print_chars_inv in Hpr as [-> _].
  destruct Hs as [Hc Hmax]. unfold cursor_inside in Hv.
  set (L := str_length (str p)) in *.
  assert (Hnext : next_char (wrap_cursor (advance_turn
            (set_next_char (wrap_int (next_char p + char_count p)) p)))
          = (next_char p + char_count p) mod L).
  { unfold wrap_cursor; simpl. fold L. unfold INT_MAX in Hmax.
    rewrite wrap_int_id by (unfold is_int, INT_MIN, INT_MAX; lia).
    rewrite to_size_t_id by lia.
    destruct (Z.leb_spec L (next_char p + char_count p)) as [Hle|Hgt]; simpl.
    - rewrite to_size_t_id by lia.
      rewrite wrap_int_id by (unfold is_int, INT_MIN, INT_MAX; lia).
      apply (Z.mod_unique_pos _ _ 1); lia.
    - symmetry. apply Z.mod_small. lia. }
  destruct (wrap_cursor_frame (advance_turn
      (set_next_char (wrap_int (next_char p + char_count p)) p)))
    as ((Hstr & Hcc & _) & _).
  simpl in Hstr, Hcc.
  unfold small_chunks, cursor_inside. rewrite Hnext, Hstr, Hcc. fold L.
  pose proof (Z.mod_pos_bound (next_char p + char_count p) L ltac:(lia)).
  repeat split; lia.
Qed.

(** [k] turns from a ready printer with the cursor at 0 are defined and
    leave the cursor at [(k * char_count) mod str.length()]. *)
Lemma run_turns_small k p :
  table_ready p → small_chunks p → cursor_inside p →
  ∃ q evs, run_turns k p = Some (q, evs) ∧
           next_char q
           = (next_char p + Z.of_nat k * char_count p) mod str_length (str p).
Proof.
  revert p. induction k as [|k IH]; intros p Hr Hs Hv.
  - exists p, []. split; [done|]. unfold cursor_inside in Hv.
    rewrite Z.mul_0_l, Z.add_0_r, Z.mod_small; [done|lia].
  - destruct (allowed_id_ready p Hr) as [_ [t Ht]].
    destruct (turn_small t p Hs Hv) as (p1 & ev & Hturn & Hnext & Hs1 & Hv1).
    destruct (turn_rotation _ _ _ _ Hr Ht Hturn) as (Hr1 & (Hstr & Hcc & _) & _).
    destruct (IH p1 Hr1 Hs1 Hv1) as (q & evs & Hrun & Hq).
    exists q, (ev :: evs).
    change (run_turns (S k) p) with
      (self ← allowed_id p; '(p1, ev) ← turn self p;
       '(p2, evs) ← run_turns k p1; Some (p2, ev :: evs)).
    rewrite Ht; simpl. rewrite Hturn; simpl. rewrite Hrun; simpl.
    split; [done|].
    rewrite Hq, Hnext, Hstr, Hcc. rewrite Zplus_mod_idemp_l. f_equal. lia.
Qed.

End small_chunks.

(** ** Schedules *)

Section schedules.

Lemma exec_invariant (I : system → Prop) :
  (∀ a s s', I s → step a s = Some s' → I s') →
  ∀ sched s s', I s → exec sched s = Some s' → I s'.
Proof.
  intros Hstep sched. induction sched as [|a rest IH]; intros s s' Hs H.
  - by simplify_eq/=.
  - simpl in H. destruct (step a s) as [s1|] eqn:E; [|done].
    simpl in H. eauto.
Qed.

End schedules.

(** ** Arguments of [main] *)

Section arguments.

Lemma read_digits_no_digit s : first_is_digit s = false → read_digits s 0 = 0.
Proof.
  destruct s as [|c rest]; [done|]. simpl. intros H.
  destruct (digit_of c) as [d|]; [|done].
  apply bool_decide_eq_false in H. destruct H. by eexists.
Qed.

Lemma atoi_is_int s : is_int (atoi s).
Proof. apply wrap_int_is_int. Qed.

Lemma atoi_no_digit s : leading_digit s = false → atoi s = 0.
Proof.
  unfold leading_digit, atoi. destruct (skip_spaces s) as [|c rest]; [done|].
  destruct (Ascii.eqb c "-"); cbn [orb].
  - intros H. by rewrite read_digits_no_digit.
  - destruct (Ascii.eqb c "+"); cbn [orb]; intros H.
    + by rewrite read_digits_no_digit.
    + by rewrite (read_digits_no_digit (String c rest)).
Qed.

Lemma idle_step p a s s' :
  thread_count p <= 0 → idle p s → step a s = Some s' → idle p s'.
Proof.
  intros Hn (Hp & Hpcs & Hout & Hmain) H. subst p.
  destruct a; unfold step in H.
  - destruct Hmain as [Hm|[Hm|Hm]]; rewrite Hm in H; try done.
    simpl in H. destruct (Z.ltb_spec 0 (thread_count (printer s))); [lia|done].
  - destruct Hmain as [Hm|[Hm|Hm]]; rewrite Hm in H; try done; simpl in H.
    + destruct (Z.ltb_spec 0 (thread_count (printer s))); [lia|].
      apply (inj Some) in H as <-. unfold idle; simpl. eauto 10.
    + destruct (Z.ltb_spec 0 (thread_count (printer s))); [lia|].
      apply (inj Some) in H as <-. unfold idle; simpl. eauto 10.
  - rewrite Hpcs, lookup_empty in H. done.
Qed.

Lemma idle_exec p sched st :
  thread_count p <= 0 → exec sched (init_system p) = Some st → idle p st.
Proof.
  intros Hn. apply (exec_invariant (idle p)).
  - intros a s1 s2. by apply idle_step.
  - unfold idle; simpl. eauto.
Qed.

End arguments.

(** ** Invariants of every schedule *)

Section invariants.

Lemma exec_same_config sched s s' :
  exec sched s = Some s' → same_config (printer s) (printer s').
Proof.
  intros H.
  apply (exec_invariant (λ x, same_config (printer s) (printer x))) in H; [done| |done].
  intros a s1 s2 (? & ? & ?) Hst. apply step_same_config in Hst as (? & ? & ?).
  unfold same_config. split_and!; congruence.
Qed.

Lemma lock_inv_init p : mutex_lock p = None → lock_inv (init_system p).
Proof.
  intros Hm. split; simpl.
  - intros t c H. by rewrite lookup_empty in H.
  - intros t H. congruence.
Qed.

Lemma lock_inv_worker t c s s' :
  lock_inv s → pcs s !! t = Some c → worker_step t c s = Some s' → lock_inv s'.
Proof.
  intros [Hown Hin] Ht H.
  pose proof (Hown t c Ht) as Hme.
  destruct c; step_inv H; try done; simpl in Hme.
  all: try match goal with
       | E : print_chars _ _ = Some _ |- _ => apply print_chars_inv in E as [-> _]
       end.
  all: split; simpl; [intros t' c' H'|intros t' H'].
  all: try rewrite lookup_insert in H'; try rewrite lookup_insert.
  all: rewrite ?wrap_cursor_mutex in *.
  all: repeat case_decide; simplify_eq/=; try naive_solver.
Qed.

Lemma lock_inv_step a s s' : lock_inv s → step a s = Some s' → lock_inv s'.
Proof.
  intros Hinv H. destruct a; unfold step in H; step_inv H;
    eauto using lock_inv_worker.
  all: destruct Hinv as [Hown Hin]; try done.
  bool_hyps.
  split; simpl; [intros t' c' H'|intros t' H'].
  - rewrite lookup_insert in H'. case_decide; [|by apply Hown].
    apply (inj Some) in H' as <-. subst t'. simpl.
    split; [done|]. intros Hm. apply Hin in Hm as [? Hm]. congruence.
  - rewrite lookup_insert. case_decide; [by eexists|by apply Hin].
Qed.

Lemma lock_inv_exec sched p s :
  mutex_lock p = None → exec sched (init_system p) = Some s → lock_inv s.
Proof.
  intros Hm. apply (exec_invariant lock_inv).
  - intros a s1 s2. apply lock_inv_step.
  - by apply lock_inv_init.
Qed.

Lemma barrier_inv_init s c n :
  is_int n → barrier_inv (init_system (MyPrinter_new s c n)).
Proof.
  intros Hn. unfold barrier_inv; simpl. split_and!; try done.
  - constructor.
  - intros t H. by apply elem_of_nil in H.
  - intros t [? H]. by rewrite lookup_empty in H.
  - by right.
  - by right.
Qed.

(** A worker moves from [c] to [c'] and leaves the printer as [p']. *)
Lemma barrier_inv_update t c c' p' out' s :
  barrier_inv s → pcs s !! t = Some c →
  same_config (printer s) p' → thread_ids p' = thread_ids (printer s) →
  (c' ≠ PBarrier → ids_size (printer s) = thread_count (printer s)) →
  (ids_size (printer s) ≠ thread_count (printer s) →
     chunks out' = [] ∧ allowed_thread p' = 0 ∧ next_char p' = 0) →
  0 <= allowed_thread p' →
  (allowed_thread p' < thread_count (printer s) ∨ allowed_thread p' = 0) →
  barrier_inv {| printer := p'; pcs := <[t := c']> (pcs s);
                 at_main := at_main s; cout := out' |}.
Proof.
  intros (Hn & Hnd & Hin & Hpos & Hmain & Hbar & Hfill & Ha0 & Ha1) Ht
    (Hs & Hc & Hcount) Hids Hpast Hfill' Ha0' Ha1'.
  assert (Hsome : ∀ t', is_Some (<[t := c']> (pcs s) !! t') ↔ is_Some (pcs s !! t')).
  { intros t'. rewrite lookup_insert. case_decide; [subst|done].
    split; eauto. }
  unfold barrier_inv, ids_size in *; simpl. rewrite Hids, Hcount.
  split_and!; try done.
  - intros t' H'. apply Hsome. auto.
  - intros t' H'. apply Hsome in H'. eauto.
  - destruct (at_main s); try done; by rewrite Hsome.
  - intros t' c0 H' Hne. rewrite lookup_insert in H'.
    case_decide; simplify_eq; eauto.
Qed.

Lemma barrier_inv_worker t c s s' :
  barrier_inv s → pcs s !! t = Some c → worker_step t c s = Some s' →
  barrier_inv s'.
Proof.
  intros Hinv Ht H.
  pose proof Hinv as (Hn & Hnd & Hin & Hpos & Hmain & Hbar & Hfill & Ha0 & Ha1).
  pose proof (Hpos t (mk_is_Some _ _ Ht)) as Hn1.
  assert (Hopen : c ≠ PBarrier → ids_size (printer s) = thread_count (printer s))
    by eauto.
  destruct c; step_inv H; try done.
  all: try match goal with
       | E : print_chars _ _ = Some _ |- _ => apply print_chars_inv in E as [-> _]
       end.
  all: unfold worker_at, say; simpl cout; simpl printer; simpl pcs; simpl at_main.
  all: eapply barrier_inv_update; eauto; try done.
  all: try (intros Hne; exfalso; apply Hne, Hopen; discriminate).
  all: try (destruct (wrap_cursor_frame (printer s)) as (? & [? ?] & Hwa & _);
            rewrite ?Hwa; done).
  - intros _. bool_hyps. rewrite <- E. apply to_size_t_id.
    unfold is_int, INT_MAX in Hn. lia.
  - rewrite advance_turn_range by (done || lia).
    apply Z.mod_pos_bound. lia.
  - left. rewrite advance_turn_range by (done || lia).
    apply Z.mod_pos_bound. lia.
Qed.

Lemma barrier_inv_step a s s' : barrier_inv s → step a s = Some s' → barrier_inv s'.
Proof.
  intros Hinv H. destruct a; unfold step in H; step_inv H;
    eauto using barrier_inv_worker.
  all: destruct Hinv as (Hn & Hnd & Hin & Hpos & Hmain & Hbar & Hfill & Ha0 & Ha1).
  all: rewrite ?E in Hmain; bool_hyps.
  all: unfold barrier_inv, ids_size in *; simpl in *.
  all: destruct_and?.
  - (* the thread is created *)
    assert (1 <= thread_count (printer s)) by lia.
    assert (t ∉ thread_ids (printer s)).
    { intros Hel. apply Hin in Hel as [? Hel]. congruence. }
    split_and!; try done.
    + intros t' H'. rewrite lookup_insert. case_decide; eauto.
    + by rewrite lookup_insert_eq.
    + intros t' c H' Hne. rewrite lookup_insert in H'.
      case_decide; simplify_eq; eauto.
  - (* the first loop is left *)
    split_and!; try done. lia.
  - (* line 75 *)
    split_and!; try done. unfold chunks. rewrite List.filter_app; simpl.
    by rewrite app_nil_r.
  - (* line 78 *)
    split_and!; try done.
    + apply NoDup_app. split_and!; [done| |apply NoDup_singleton].
      intros x Hx Hx'. apply list_elem_of_singleton in Hx'. by subst.
    + intros t' H'. apply elem_of_app in H' as [H'|H']; [eauto|].
      apply list_elem_of_singleton in H'. by subst.
    + rewrite length_app; simpl. lia.
    + intros t' c H' Hne. specialize (Hbar _ _ H' Hne). lia.
    + intros _. apply Hfill. lia.
  - (* line 81 and i++ *)
    assert (wrap_int (i + 1) = i + 1) as ->.
    { apply wrap_int_id. unfold is_int, INT_MIN, INT_MAX in *. lia. }
    split_and!; try done. left; lia.
  - (* the second loop is left *)
    split_and!; try done; lia.
Qed.

Lemma barrier_inv_exec sched s c n st :
  is_int n → exec sched (init_system (MyPrinter_new s c n)) = Some st →
  barrier_inv st.
Proof.
  intros Hn. apply (exec_invariant barrier_inv).
  - intros a s1 s2. apply barrier_inv_step.
  - by apply barrier_inv_init.
Qed.

Lemma chunks_snoc evs ev :
  chunks (evs ++ [ev]) = chunks evs ++ (if is_chunk ev then [ev] else []).
Proof. unfold chunks. rewrite List.filter_app. simpl. by destruct (is_chunk ev). Qed.

(** The turn invariant reads the mutex, its owner's position, the shared
    data and the chunk lines, and nothing else. *)
Lemma turn_inv_same s s' :
  mutex_lock (printer s') = mutex_lock (printer s) →
  (∀ t, mutex_lock (printer s) = Some t → pcs s' !! t = pcs s !! t) →
  shared (printer s') = shared (printer s) →
  chunks (cout s') = chunks (cout s) →
  turn_inv s → turn_inv s'.
Proof.
  intros Hm Hpc Hsh Hout. unfold turn_inv.
  assert (Hst : at_start (printer s') = at_start (printer s))
    by (unfold at_start; by rewrite Hsh).
  assert (Hal : allowed_id (printer s') = allowed_id (printer s)).
  { unfold allowed_id.
    change (thread_ids (printer s')) with (thread_ids (shared (printer s'))).
    change (allowed_thread (printer s')) with (allowed_thread (shared (printer s'))).
    by rewrite Hsh. }
  rewrite Hm, Hout.
  unfold turns_done, turn_printed, turn_advanced. rewrite Hst, Hsh, Hal.
  destruct (mutex_lock (printer s)) as [t|]; [|done].
  by rewrite (Hpc t eq_refl).
Qed.

Lemma turn_inv_worker t c s s' :
  lock_inv s → turn_inv s → pcs s !! t = Some c →
  worker_step t c s = Some s' → turn_inv s'.
Proof.
  intros [Hown Hin] Hturn Ht H.
  pose proof (Hown t c Ht) as Hme.
  assert (Hother : ∀ c', holds_mutex c = false →
            turn_inv (worker_at t c' (printer s) s)).
  { intros c' Hc. apply (turn_inv_same s); simpl; try done.
    intros t0 Hm. rewrite lookup_insert_ne; [done|]. intros ->.
    apply Hme in Hm. congruence. }
  assert (Hmine : holds_mutex c = true →
            mutex_lock (printer s) = Some t ∧
            match c with
            | PPrint => turns_done (printer s) (chunks (cout s)) ∧
                        allowed_id (printer s) = Some t
            | PAdvance => turn_printed t (printer s) (chunks (cout s))
            | PWrap => turn_advanced t (printer s) (chunks (cout s))
            | _ => turns_done (printer s) (chunks (cout s))
            end).
  { intros Hc. apply Hme in Hc. split; [done|].
    unfold turn_inv in Hturn. by rewrite Hc, Ht in Hturn. }
  destruct c; step_inv H; try done; simpl in Hme, Hmine.
  all: try (by apply Hother).
  all: try destruct (Hmine eq_refl) as [Hm Hrel].
  all: unfold turn_inv; simpl; rewrite ?Hm, ?lookup_insert_eq.
  - (* the mutex is taken *)
    unfold turn_inv in Hturn. by rewrite E in Hturn.
  - (* the predicate of cv.wait holds *)
    done.
  - (* it does not: the mutex is released *)
    done.
  - (* the mutex is taken again after the wait *)
    unfold turn_inv in Hturn. by rewrite E in Hturn.
  - (* print_chars *)
    destruct Hrel as [Hdone Hal].
    pose proof E as E'. apply print_chars_inv in E' as (-> & cs & Hcs & ->).
    simpl. rewrite Hm, chunks_snoc, ?lookup_insert_eq. simpl.
    exists (shared (printer s)), (chunks (cout s)), 
      (EvChunk t (getCurrentThreadId (printer s) t) (string_of_list_ascii cs)).
    split_and!; try done.
    by apply print_chars_shared in E.
  - (* the turn index moves *)
    destruct Hrel as (q & evs0 & ev & Hevs & Hrun & Hal & Hpr).
    exists q, evs0, ev, (shared (printer s)). by split_and!.
  - (* the cursor wraps *)
    destruct Hrel as (q & evs0 & ev & p1 & Hevs & Hrun & Hal & Hpr & Hsh).
    rewrite wrap_cursor_mutex, Hm, lookup_insert_eq.
    assert (Hst : at_start (wrap_cursor (printer s)) = at_start (printer s)).
    { destruct (wrap_cursor_frame (printer s)) as (? & [? ?] & _).
      by apply at_start_eq. }
    unfold turns_done. rewrite Hevs, length_app, Nat.add_comm.
    rewrite wrap_cursor_shared, Hsh, Hst.
    eapply run_turns_snoc; eauto.
    unfold turn. by rewrite Hpr.
  - (* unlock *)
    done.
Qed.

Lemma turn_inv_step a s s' :
  lock_inv s → barrier_inv s → turn_inv s → step a s = Some s' → turn_inv s'.
Proof.
  intros Hlock Hbarrier Hturn H.
  destruct a; unfold step in H; step_inv H; eauto using turn_inv_worker.
  all: destruct Hlock as [Hown Hin].
  - (* the thread is created *)
    bool_hyps. apply (turn_inv_same s); simpl; try done.
    intros t0 Hm. rewrite lookup_insert_ne; [done|]. intros ->.
    apply Hin in Hm as [? Hm]. congruence.
  - (* line 75 *)
    apply (turn_inv_same s); simpl; try done.
    rewrite chunks_snoc. simpl. by rewrite app_nil_r.
  - (* line 78: the table grows, no turn has begun *)
    destruct Hbarrier as (Hn & Hnd & Hids & Hpos & Hmain & Hbar & Hfill & _).
    rewrite E in Hmain. destruct Hmain as (Hi & Hlt & _).
    destruct Hfill as (Hout & Ha & Hc); [lia|].
    destruct (mutex_lock (printer s)) as [t0|] eqn:Hm.
    { destruct (Hin t0 eq_refl) as [c Hc0].
      assert (Hpast : c ≠ PBarrier).
      { intros ->. pose proof (proj2 (Hown _ _ Hc0) eq_refl) as Hf.
        discriminate Hf. }
      specialize (Hbar _ _ Hc0 Hpast). lia. }
    unfold turn_inv; simpl. rewrite Hm, Hout.
    unfold turns_done; simpl. f_equal. f_equal.
    symmetry. by apply shared_eq_at_start.
Qed.

(** The three invariants together. *)
Lemma all_inv_exec sched s c n st :
  is_int n → exec sched (init_system (MyPrinter_new s c n)) = Some st →
  lock_inv st ∧ barrier_inv st ∧ turn_inv st.
Proof.
  intros Hn.
  apply (exec_invariant (λ x, lock_inv x ∧ barrier_inv x ∧ turn_inv x)).
  - intros a s1 s2 (Hl & Hb & Ht) Hst. split_and!.
    + eapply lock_inv_step; eauto.
    + eapply barrier_inv_step; eauto.
    + eapply turn_inv_step; eauto.
  - split_and!.
    + by apply lock_inv_init.
    + by apply barrier_inv_init.
    + done.
Qed.

(** Whatever the schedule, the chunk lines are those of turns taken one
    after the other from the start. *)
Lemma exec_refines_turns sched s c n st :
  is_int n → exec sched (init_system (MyPrinter_new s c n)) = Some st →
  ∃ q, run_turns (List.length (chunks (cout st))) (at_start (printer st))
       = Some (q, chunks (cout st)).
Proof.
  intros Hn H. destruct (all_inv_exec _ _ _ _ _ Hn H) as (_ & _ & Ht).
  unfold turn_inv in Ht.
  assert (Hsnoc : ∀ t q evs0 ev p1,
    chunks (cout st) = evs0 ++ [ev] →
    run_turns (List.length evs0) (at_start (printer st)) = Some (q, evs0) →
    allowed_id q = Some t → print_chars t q = Some (p1, ev) →
    ∃ q', run_turns (List.length (chunks (cout st))) (at_start (printer st))
          = Some (q', chunks (cout st))).
  { intros t q evs0 ev p1 -> Hrun Hal Hpr.
    rewrite length_app, Nat.add_comm. eexists.
    eapply run_turns_snoc; eauto. unfold turn. by rewrite Hpr. }
  destruct (mutex_lock (printer st)) as [t|]; [|by eexists].
  destruct (pcs st !! t) as [[]|]; try (by eexists).
  - destruct Ht as [Ht _]. by eexists.
  - destruct Ht as (q & evs0 & ev & Hevs & Hrun & Hal & Hpr). eauto.
  - destruct Ht as (q & evs0 & ev & p1 & Hevs & Hrun & Hal & Hpr & _). eauto.
Qed.

(** The table is complete as soon as a worker has printed. *)
Lemma exec_table_ready sched s c n st :
  is_int n → 1 <= n →
  exec sched (init_system (MyPrinter_new s c n)) = Some st →
  thread_count (printer st) = n ∧
  (chunks (cout st) ≠ [] ∨ (∃ t c', pcs st !! t = Some c' ∧ c' ≠ PBarrier) →
   table_ready (at_start (printer st))).
Proof.
  intros Hn Hn1 H.
  destruct (all_inv_exec _ _ _ _ _ Hn H) as (_ & Hb & _).
  apply exec_same_config in H as (_ & _ & Hcount). simpl in Hcount.
  split; [done|]. intros Hopen.
  destruct Hb as (_ & Hnd & _ & _ & _ & Hbar & Hfill & _).
  unfold table_ready, ids_size in *; simpl. rewrite Hcount in *.
  split_and!; try done; try lia.
  destruct Hopen as [Hout|(t & c' & Ht & Hc')]; [|eauto].
  destruct (decide (Z.of_nat (List.length (thread_ids (printer st))) = n));
    [done|].
  by destruct Hfill as [? _].
Qed.

End invariants.

(** * Results *)

Section results.

(** C1. With [n >= 1] workers, whatever the schedule: the step that ends
    the printing part of a turn moves [allowed_thread] to [(allowed_thread
    + 1) mod n]; the [j]-th chunk line is printed by the worker at place
    [j mod n] of [thread_ids] and carries that place; and the workers of
    the first [m] turns are [thread_ids] repeated and cut to [m]. *)
Theorem strict_rotation (s : string) (c n : Z) (sched : list action) (st : system) :
  is_int n → 1 <= n →
  exec sched (init_system (MyPrinter_new s c n)) = Some st →
  (∀ t st', pcs st !! t = Some PAdvance → step (AWorker t) st = Some st' →
     allowed_thread (printer st')
     = (allowed_thread (printer st) + 1) mod n) ∧
  (∀ j ev, chunks (cout st) !! j = Some ev →
     ∃ t chunk,
       ev = EvChunk t (Z.of_nat j mod n) chunk ∧
       thread_ids (printer st) !! Z.to_nat (Z.of_nat j mod n) = Some t) ∧
  (∀ m, (m <= List.length (chunks (cout st)))%nat →
     take m (actors (chunks (cout st)))
     = repeat_truncate (thread_ids (printer st)) m).
Proof.
  intros Hn Hn1 H.
  destruct (all_inv_exec _ _ _ _ _ Hn H) as (_ & Hb & _).
  destruct (exec_table_ready _ _ _ _ _ Hn Hn1 H) as [Hcount Hready].
  destruct (exec_refines_turns _ _ _ _ _ Hn H) as [q Hrun].
  split_and!.
  - intros t st' Ht Hst. unfold step in Hst. rewrite Ht in Hst.
    simpl in Hst. apply (inj Some) in Hst as <-. simpl.
    destruct Hb as (_ & _ & _ & _ & _ & _ & _ & Ha0 & Ha1).
    rewrite <- Hcount. apply advance_turn_range; [by rewrite Hcount|].
    rewrite Hcount in *. lia.
  - intros j ev Hev.
    assert (Hne : chunks (cout st) ≠ []) by (by intros Heq; rewrite Heq in Hev).
    specialize (Hready (or_introl Hne)).
    destruct (run_turns_rotation _ _ _ _ Hready Hrun)
      as (_ & _ & _ & _ & _ & Hevs).
    destruct (Hevs _ _ Hev) as (t & ch & -> & Ht). simpl in Ht.
    rewrite Hcount, Z.add_0_l in Ht. simpl. rewrite Hcount, Z.add_0_l. eauto.
  - intros m Hm.
    destruct (chunks (cout st)) as [|ev evs] eqn:Hout.
    { simpl in Hm. by replace m with 0%nat by lia. }
    assert (Hne : ev :: evs ≠ []) by done.
    specialize (Hready (or_introl Hne)).
    by apply (run_turns_actors _ _ _ _ _ Hready eq_refl Hrun).
Qed.

Lemma strict_rotation_witness :
  ∃ st, exec demo_schedule demo_init = Some st ∧
        take 4 (actors (chunks (cout st))) = [5; 9; 5; 9]%nat.
Proof.
  destruct (exec demo_schedule demo_init) as [st|] eqn:E;
    [|vm_compute in E; discriminate E].
  exists st. split; [done|].
  assert (Hids : thread_ids (printer st) = [5; 9]%nat).
  { vm_compute in E. by simplify_eq. }
  assert (Hlen : List.length (chunks (cout st)) = 4%nat).
  { vm_compute in E. by simplify_eq. }
  destruct (strict_rotation "ABCDEFGH" 3 2 demo_schedule st) as (_ & _ & Hrot).
  - unfold is_int, INT_MIN, INT_MAX. lia.
  - lia.
  - exact E.
  - rewrite (Hrot 4%nat) by lia. by rewrite Hids.
Defined.

(** C5. Whatever the schedule, two workers are never both between the end
    of [cv.wait] and [lock.unlock()], where the chunk is read and the cursor
    and the turn index are moved. *)
Theorem mutual_exclusion (s : string) (c n : Z) (sched : list action) (st : system)
    (t1 t2 : thread_id) (c1 c2 : pc) :
  exec sched (init_system (MyPrinter_new s c n)) = Some st →
  pcs st !! t1 = Some c1 → pcs st !! t2 = Some c2 →
  in_turn c1 = true → in_turn c2 = true →
  t1 = t2.
Proof.
  intros H H1 H2 Hc1 Hc2.
  apply lock_inv_exec in H as [Hown _]; [|done].
  assert (Hm1 : mutex_lock (printer st) = Some t1).
  { apply (Hown _ _ H1). by destruct c1. }
  assert (Hm2 : mutex_lock (printer st) = Some t2).
  { apply (Hown _ _ H2). by destruct c2. }
  congruence.
Qed.

Lemma mutual_exclusion_witness :
  ∃ st, exec demo_midturn demo_init = Some st ∧
        pcs st !! 5%nat = Some PAdvance ∧
        ∀ t c, pcs st !! t = Some c → in_turn c = true → t = 5%nat.
Proof.
  destruct (exec demo_midturn demo_init) as [st|] eqn:E;
    [|vm_compute in E; discriminate E].
  exists st. split; [done|].
  assert (H5 : pcs st !! 5%nat = Some PAdvance).
  { vm_compute in E. by simplify_eq. }
  split; [done|]. intros t c Ht Hc.
  exact (mutual_exclusion "ABCDEFGH" 3 2 demo_midturn st t 5%nat c PAdvance
           E Ht H5 Hc eq_refl).
Defined.



(** C9. A turn changes [next_char] and [allowed_thread] and nothing else of
    the printer; no step of a worker changes [str], [char_count],
    [thread_count], [thread_ids] or [threads]; and once the table has
    [thread_count] entries no step of any thread changes it. *)
Theorem turn_frame :
  (∀ t p q ev, turn t p = Some (q, ev) →
     q = set_next_char (next_char q) (set_allowed_thread (allowed_thread q) p)) ∧
  (∀ t st st', step (AWorker t) st = Some st' →
     same_config (printer st) (printer st') ∧
     same_tables (printer st) (printer st')) ∧
  (∀ s c n sched st a st',
     is_int n →
     exec sched (init_system (MyPrinter_new s c n)) = Some st →
     ids_size (printer st) = n →
     step a st = Some st' →
     same_config (printer st) (printer st') ∧
     thread_ids (printer st') = thread_ids (printer st)).
Proof.
  split_and!.
  - intros t p q ev H. apply turn_inv_eq in H as [-> _].
    unfold wrap_cursor, advance_turn. by case_match.
  - intros t st st' H. unfold step in H.
    destruct (pcs st !! t) as [c|] eqn:Ht; [|done]. simpl in H.
    by apply worker_step_frame in H.
  - intros s c n sched st a st' Hn H Hfull Hst.
    split; [by apply step_same_config in Hst|].
    destruct (all_inv_exec _ _ _ _ _ Hn H) as (_ & Hb & _).
    apply exec_same_config in H as (_ & _ & Hcount). simpl in Hcount.
    destruct Hb as (_ & _ & _ & _ & Hmain & _).
    destruct a; unfold step in Hst; step_inv Hst; try done.
    + lia.
    + by apply worker_step_frame in Hst as [_ [? _]].
Qed.

Lemma turn_frame_witness :
  ∃ st st', exec demo_midturn demo_init = Some st ∧
            step (AWorker 5%nat) st = Some st' ∧
            thread_ids (printer st') = thread_ids (printer st) ∧
            str (printer st') = str (printer st).
Proof.
  destruct (exec demo_midturn demo_init) as [st|] eqn:E;
    [|vm_compute in E; discriminate E].
  destruct (step (AWorker 5%nat) st) as [st'|] eqn:E'.
  2:{ vm_compute in E. apply (inj Some) in E. subst st.
      vm_compute in E'. discriminate E'. }
  exists st, st'. split_and!; [reflexivity|exact E'| |].
  - destruct turn_frame as (_ & Hw & _).
    by destruct (Hw _ _ _ E') as [_ [? _]].
  - destruct turn_frame as (_ & Hw & _).
    by destruct (Hw _ _ _ E') as [[? _] _].
Defined.

(** C3. "ABCDEFGH" by chunks of 3 with two workers: whatever the schedule,
    once four chunks are out they are "ABC", "DEF", "GHA", "BCD", printed
    by the first, the second, the first and the second worker of the table,
    and the cursor goes 0, 3, 6, 1, 4. *)
Theorem scenario_first_four (sched : list action) (st : system) :
  exec sched (init_system (MyPrinter_new "ABCDEFGH" 3 2)) = Some st →
  (4 <= List.length (chunks (cout st)))%nat →
  ∃ t0 t1,
    t0 ≠ t1 ∧ thread_ids (printer st) = [t0; t1] ∧
    take 4 (chunks (cout st))
    = [EvChunk t0 0 "ABC"; EvChunk t1 1 "DEF";
       EvChunk t0 0 "GHA"; EvChunk t1 1 "BCD"] ∧
    cursors 4 (at_start (printer st))
    = [Some 0; Some 3; Some 6; Some 1; Some 4].
Proof.
  intros H Hlen.
  assert (Hn : is_int 2) by (unfold is_int, INT_MIN, INT_MAX; lia).
  destruct (exec_table_ready _ _ _ _ _ Hn ltac:(lia) H) as [Hcount Hready].
  destruct (exec_refines_turns _ _ _ _ _ Hn H) as [q Hrun].
  pose proof (exec_same_config _ _ _ H) as (Hs & Hc & _). simpl in Hs, Hc.
  destruct Hready as (_ & Hnd & Hsz & _).
  { left. intros Heq. rewrite Heq in Hlen. simpl in Hlen. lia. }
  unfold ids_size in Hsz. simpl in Hsz, Hnd. rewrite Hcount in Hsz.
  destruct (thread_ids (printer st)) as [|t0 [|t1 [|t2 ids]]] eqn:Hids;
    simpl in Hsz; try lia.
  assert (Hne : t0 ≠ t1).
  { apply NoDup_cons in Hnd as [Hnd _]. intros ->. apply Hnd. by left. }
  assert (Hstart : at_start (printer st) = scenario t0 t1).
  { unfold at_start, shared, scenario, scenario_at, set_next_char,
      set_allowed_thread; simpl. by rewrite Hs, Hc, Hcount, Hids. }
  rewrite Hstart in *.
  destruct (scenario_turns t0 t1 Hne) as [Hfour Hcur].
  destruct (run_turns_prefix _ _ _ _ 4 Hrun Hlen) as [q' Hq'].
  rewrite Hfour in Hq'. apply (inj Some) in Hq'.
  exists t0, t1. split_and!; [exact Hne|reflexivity| |exact Hcur].
  by injection Hq'.
Qed.

Lemma scenario_first_four_witness :
  ∃ st, exec demo_schedule demo_init = Some st ∧
        take 4 (chunks (cout st))
        = [EvChunk 5%nat 0 "ABC"; EvChunk 9%nat 1 "DEF";
           EvChunk 5%nat 0 "GHA"; EvChunk 9%nat 1 "BCD"].
Proof.
  destruct (exec demo_schedule demo_init) as [st|] eqn:E;
    [|vm_compute in E; discriminate E].
  exists st. split; [done|].
  assert (Hids : thread_ids (printer st) = [5; 9]%nat).
  { vm_compute in E. by simplify_eq. }
  assert (Hlen : (4 <= List.length (chunks (cout st)))%nat).
  { vm_compute in E. apply (inj Some) in E. subst st. vm_compute. lia. }
  destruct (scenario_first_four demo_schedule st E Hlen)
    as (t0 & t1 & _ & Ht & Hfour & _).
  rewrite Hids in Ht. injection Ht as <- <-. exact Hfour.
Defined.

(** C7, against the code: the empty string by chunks of 0 with one worker is
    an invalid configuration, yet [main] builds the printer and calls [run],
    the worker is created and prints an empty chunk. *)
Lemma configuration_not_rejected :
  invalid_configuration "" (atoi "0") (atoi "1") ∧
  ¬ rejected (main ["a.out"; ""; "0"; "1"]%string) ∧
  ∃ st, main ["a.out"; ""; "0"; "1"]%string
        = Running (init_system (MyPrinter_new "" 0 1)) ∧
        exec ([ASpawn 5%nat; AMain; AMain; AMain; AMain]
                ++ replicate 4 (AWorker 5%nat))
          (init_system (MyPrinter_new "" 0 1)) = Some st ∧
        cout st = [EvCreated 5%nat 0; EvChunk 5%nat 0 ""].
Proof.
  split_and!.
  - left. vm_compute. discriminate.
  - intros (status & out & H & _). discriminate H.
  - eexists. split_and!; [done|vm_compute; reflexivity|done].
Qed.

(** C7, as the code has it: the constructor stores its three arguments
    unchecked and [main] goes on to [run] whatever they are; with a worker
    count of 0 or less [run] creates no thread and [main] returns 0; with a
    worker count of 1 or more the first worker is created whatever the
    chunk size and the string are. *)
Theorem configuration_unchecked (a0 s a2 a3 : string) (c n : Z) :
  main [a0; s; a2; a3]
  = Running (init_system (MyPrinter_new s (atoi a2) (atoi a3))) ∧
  str (MyPrinter_new s c n) = s ∧
  char_count (MyPrinter_new s c n) = c ∧
  thread_count (MyPrinter_new s c n) = n ∧
  (n <= 0 →
   ∃ st, exec [AMain; AMain] (init_system (MyPrinter_new s c n)) = Some st ∧
         at_main st = MReturned 0 ∧ pcs st = ∅ ∧ cout st = []) ∧
  (1 <= n →
   ∀ t, ∃ st, step (ASpawn t) (init_system (MyPrinter_new s c n)) = Some st ∧
              pcs st !! t = Some PBarrier).
Proof.
  split_and!; try done.
  - intros Hn. eexists. simpl.
    destruct (Z.ltb_spec 0 n) as [?|_]; [lia|]. simpl.
    destruct (Z.ltb_spec 0 n) as [?|_]; [lia|]. done.
  - intros Hn t. eexists. simpl.
    destruct (Z.ltb_spec 0 n) as [_|?]; [|lia].
    rewrite bool_decide_eq_true_2 by apply lookup_empty. simpl.
    split; [done|]. simpl. by rewrite lookup_insert_eq.
Qed.

Lemma configuration_unchecked_witness :
  (∃ st, exec [AMain; AMain] (init_system (MyPrinter_new "" 0 0)) = Some st ∧
         at_main st = MReturned 0 ∧ pcs st = ∅ ∧ cout st = []) ∧
  (∀ t, ∃ st, step (ASpawn t) (init_system (MyPrinter_new "" 0 1)) = Some st ∧
              pcs st !! t = Some PBarrier).
Proof.
  split.
  - apply (configuration_unchecked "a.out" "" "0" "0" 0 0). lia.
  - apply (configuration_unchecked "a.out" "" "0" "1" 0 1). lia.
Defined.

(** C10, against the code: "3x" is no decimal numeral, yet [atoi] reads 3
    from it and [run] creates a worker. *)
Lemma atoi_reads_prefix :
  decimal_numeral "3x" = false ∧ atoi "3x" = 3 ∧
  main ["a.out"; "AB"; "2"; "3x"]%string
  = Running (init_system (MyPrinter_new "AB" 2 3)) ∧
  ∃ st, step (ASpawn 5%nat) (init_system (MyPrinter_new "AB" 2 3)) = Some st ∧
        pcs st !! 5%nat = Some PBarrier.
Proof.
  split_and!; try done. eexists. split; [vm_compute; reflexivity|done].
Qed.

(** C10, as the code has it: an argument in which no digit follows the
    leading white space and the optional sign is read as 0; [main] goes on
    to [run] without any message; with a worker count of 0 no schedule
    creates a thread or prints a line, and [main] returns 0; a chunk size of
    0 is stored as it is. *)
Theorem non_numeric_arguments (a0 s a2 a3 : string) :
  (leading_digit a2 = false → atoi a2 = 0) ∧
  (leading_digit a3 = false → atoi a3 = 0) ∧
  main [a0; s; a2; a3]
  = Running (init_system (MyPrinter_new s (atoi a2) (atoi a3))) ∧
  char_count (MyPrinter_new s (atoi a2) (atoi a3)) = atoi a2 ∧
  (atoi a3 = 0 →
   (∀ sched st,
      exec sched (init_system (MyPrinter_new s (atoi a2) (atoi a3))) = Some st →
      pcs st = ∅ ∧ cout st = []) ∧
   ∃ st, exec [AMain; AMain]
           (init_system (MyPrinter_new s (atoi a2) (atoi a3))) = Some st ∧
         at_main st = MReturned 0).
Proof.
  split_and!; try done; try apply atoi_no_digit.
  intros H3. split.
  - intros sched st H.
    apply idle_exec in H as (_ & ? & ? & _); [done|]. simpl. lia.
  - rewrite H3. by eexists.
Qed.

Lemma non_numeric_arguments_witness :
  atoi "abc" = 0 ∧ atoi "-" = 0 ∧
  ∃ st, exec [AMain; AMain] (init_system (MyPrinter_new "AB" 0 0)) = Some st ∧
        at_main st = MReturned 0.
Proof.
  destruct (non_numeric_arguments "a.out" "AB" "-" "abc")
    as (H2 & H3 & _ & _ & Hrun).
  split_and!.
  - by apply H3.
  - by apply H2.
  - rewrite (H2 eq_refl), (H3 eq_refl) in Hrun. by apply Hrun.
Defined.

(** C2, against the code: "ABC" by chunks of 4 with one worker.  The three
    first turns read inside the string; after the third the cursor is 3,
    which is neither [(3 * 4) mod 3] nor inside the string. *)
Lemma cursor_leaves_string :
  main ["a.out"; "ABC"; "4"; "1"]%string
  = Running (init_system (MyPrinter_new "ABC" 4 1)) ∧
  ∃ st, exec (spawn_one ++ one_round 5%nat ++ one_round 5%nat ++ one_round 5%nat)
          (init_system (MyPrinter_new "ABC" 4 1)) = Some st ∧
        chunks (cout st)
        = [EvChunk 5%nat 0 "ABCA"; EvChunk 5%nat 0 "BCAB"; EvChunk 5%nat 0 "CABC"] ∧
        next_char (printer st) = 3 ∧
        (3 * char_count (printer st)) mod str_length (str (printer st)) = 0 ∧
        ¬ cursor_inside (printer st).
Proof.
  split; [done|]. eexists. split; [vm_compute; reflexivity|].
  split_and!; try done. unfold cursor_inside, str_length; simpl. lia.
Qed.

(** C4, against the code: "ABC" by chunks of 10 with one worker.  The first
    turn reads at 3, 4, 5 and 6, beyond the string, and the step has no
    defined outcome. *)
Lemma chunk_read_beyond_string :
  main ["a.out"; "ABC"; "10"; "1"]%string
  = Running (init_system (MyPrinter_new "ABC" 10 1)) ∧
  ∃ st, exec (spawn_one ++ replicate 3 (AWorker 5%nat))
          (init_system (MyPrinter_new "ABC" 10 1)) = Some st ∧
        pcs st !! 5%nat = Some PPrint ∧
        read_indices (printer st) = [0; 1; 2; 0; 1; 2; 3; 4; 5; 6] ∧
        str_length (str (printer st)) = 3 ∧
        step (AWorker 5%nat) st = None.
Proof.
  split; [done|]. eexists. split; [vm_compute; reflexivity|].
  split_and!; done.
Qed.

End results.

(** * Further properties of the same code *)

Section further.

Lemma find_thread_id_spec ids id k0 :
  is_int k0 → is_int (k0 + Z.of_nat (List.length ids)) → 0 <= k0 →
  (id ∉ ids → find_thread_id ids id k0 = -1) ∧
  (id ∈ ids →
   ∃ k : nat, find_thread_id ids id k0 = k0 + Z.of_nat k ∧
              ids !! k = Some id ∧
              ∀ j, (j < k)%nat → ids !! j ≠ Some id).
Proof.
  revert k0. induction ids as [|e ids IH]; intros k0 Hk0 Hk Hpos.
  - split; [done|]. intros H. by apply elem_of_nil in H.
  - simpl in Hk. unfold is_int, INT_MIN, INT_MAX in *.
    simpl. destruct (decide (e = id)) as [->|Hne].
    + split.
      * intros H. destruct H. by left.
      * intros _. exists 0%nat. split_and!; [lia|done|]. intros j Hj. lia.
    + rewrite wrap_int_id by (unfold is_int, INT_MIN, INT_MAX; lia).
      destruct (IH (k0 + 1)) as [Hout Hin]; try lia.
      split.
      * intros H. apply Hout. intros Hel. apply H. by right.
      * intros H. apply elem_of_cons in H as [->|H]; [done|].
        destruct (Hin H) as (k & Hk' & Hlook & Hfirst).
        exists (S k). split_and!; [lia|done|].
        intros [|j] Hj; simpl; [congruence|]. apply Hfirst. lia.
Qed.

(** [getCurrentThreadId] (lines 54-62), for a table of at most [INT_MAX]
    entries: the answer is -1 exactly when the identity is not in the
    table; otherwise it is the first position that holds it. *)
Theorem getCurrentThreadId_spec (p : MyPrinter) (id : thread_id) :
  ids_size p <= INT_MAX →
  (getCurrentThreadId p id = -1 ↔ id ∉ thread_ids p) ∧
  (id ∈ thread_ids p →
   ∃ k : nat, getCurrentThreadId p id = Z.of_nat k ∧
              thread_ids p !! k = Some id ∧
              ∀ j, (j < k)%nat → thread_ids p !! j ≠ Some id).
Proof.
  intros Hsz. unfold getCurrentThreadId, ids_size in *.
  destruct (find_thread_id_spec (thread_ids p) id 0) as [Hout Hin].
  - unfold is_int, INT_MIN, INT_MAX. lia.
  - unfold is_int, INT_MIN, INT_MAX in *. lia.
  - lia.
  - split; [split; [|done]|].
    + intros Hm Hel. destruct (Hin Hel) as (k & Hk & _). lia.
    + intros Hel. destruct (Hin Hel) as (k & Hk & Hlook & Hfirst).
      exists k. split_and!; [lia|done|done].
Qed.

Lemma getCurrentThreadId_spec_witness :
  getCurrentThreadId (scenario 5%nat 9%nat) 9%nat = 1 ∧
  getCurrentThreadId (scenario 5%nat 9%nat) 7%nat = -1.
Proof.
  destruct (getCurrentThreadId_spec (scenario 5%nat 9%nat) 7%nat) as [Habs _].
  { vm_compute. discriminate. }
  split; [reflexivity|]. apply Habs. 
  intros H. repeat (apply elem_of_cons in H as [H|H]; [discriminate H|]).
  by apply elem_of_nil in H.
Defined.

Lemma loop_test_range s i :
  is_int i → str_length s <= INT_MAX → to_size_t i < str_length s →
  0 <= i < str_length s.
Proof.
  intros Hi HL Hlt. unfold is_int, INT_MIN, INT_MAX in *.
  destruct (decide (0 <= i)).
  - rewrite to_size_t_id in Hlt by lia. lia.
  - rewrite to_size_t_neg in Hlt by (unfold INT_MIN; lia). lia.
Qed.

Lemma first_loop_in_bounds fuel s cc i pc x :
  is_int i → str_length s <= INT_MAX →
  x ∈ (first_loop fuel s cc i pc).2 → 0 <= x < str_length s.
Proof.
  intros Hi HL. revert i pc Hi.
  induction fuel as [|fuel IH]; intros i pc Hi Hx; simpl in Hx.
  - by apply elem_of_nil in Hx.
  - destruct (Z.ltb_spec (to_size_t i) (str_length s)) as [Hlt|_]; simpl in Hx.
    2:{ by apply elem_of_nil in Hx. }
    destruct (pc <? cc); simpl in Hx.
    2:{ by apply elem_of_nil in Hx. }
    destruct (first_loop fuel s cc (wrap_int (i + 1)) (wrap_int (pc + 1)))
      as [pc' idx] eqn:E.
    simpl in Hx. apply elem_of_cons in Hx as [->|Hx].
    + by apply loop_test_range.
    + apply (IH (wrap_int (i + 1)) (wrap_int (pc + 1))).
      * apply wrap_int_is_int.
      * by rewrite E.
Qed.

(** The first loop of [print_chars] (lines 164-170), from any [int] cursor
    and for any chunk size, on a string of at most [INT_MAX] characters:
    every index it reads is inside the string, and it has ended by its own
    test within [str.length()] iterations (allowing more changes
    nothing). *)
Theorem first_loop_safe (s : string) (cc i : Z) (extra : nat) :
  is_int i → str_length s <= INT_MAX →
  (∀ x, x ∈ (first_loop (String.length s) s cc i 0).2 →
        0 <= x < str_length s) ∧
  first_loop (String.length s + extra) s cc i 0
  = first_loop (String.length s) s cc i 0.
Proof.
  intros Hi HL. split.
  - intros x. by apply first_loop_in_bounds.
  - apply first_loop_fuel; try done; unfold str_length; lia.
Qed.

Lemma first_loop_safe_witness :
  first_loop (8 + 5) "ABCDEFGH" 3 6 0 = (2, [6; 7]) ∧
  ∀ x, x ∈ [6; 7] → 0 <= x < 8.
Proof.
  destruct (first_loop_safe "ABCDEFGH" 3 6 5) as [Hin Hfuel].
  - unfold is_int, INT_MIN, INT_MAX. lia.
  - vm_compute. discriminate.
  - split; [etrans; [exact Hfuel|reflexivity]|exact Hin].
Defined.

(** [print_chars] on the empty string: the wrap-around loop reads
    [str[0 .. char_count - 1]]; [str[0]] is the terminator, the rest is
    beyond it.  So the call is defined exactly for a chunk size of 1 or
    less. *)
Theorem print_chars_empty_string (t : thread_id) (p : MyPrinter) :
  str p = EmptyString → is_int (char_count p) →
  (is_Some (print_chars t p) ↔ char_count p <= 1).
Proof.
  intros Hs Hc. unfold print_chars.
  assert (Hidx : read_indices p
                 = if 0 <? char_count p then seqZ 0 (char_count p) else []).
  { unfold read_indices. rewrite Hs. simpl. unfold second_loop.
    rewrite Z.sub_0_r. by rewrite wrap_int_id. }
  rewrite Hidx, Hs.
  destruct (Z.ltb_spec 0 (char_count p)) as [Hpos|Hneg].
  2:{ simpl. split; [lia|by eexists]. }
  split.
  - intros Hsome. destruct (decide (char_count p <= 1)) as [|Hbig]; [done|].
    destruct (mapM (str_at "") (seqZ 0 (char_count p))) as [cs|] eqn:E.
    2:{ simpl in Hsome. by destruct Hsome. }
    assert (Hall : is_Some (mapM (str_at "") (seqZ 0 (char_count p))))
      by (by eexists).
    apply mapM_is_Some in Hall.
    assert (H1 : 1 ∈ seqZ 0 (char_count p)) by (apply elem_of_seqZ; lia).
    apply (proj1 (Forall_forall _ _) Hall) in H1. by destruct H1.
  - intros Hle. replace (char_count p) with 1 by lia. by eexists.
Qed.

Lemma print_chars_empty_string_witness :
  is_Some (print_chars 5%nat (MyPrinter_new "" 1 1)) ∧
  ¬ is_Some (print_chars 5%nat (MyPrinter_new "" 2 1)).
Proof.
  split.
  - apply (print_chars_empty_string 5%nat (MyPrinter_new "" 1 1));
      [reflexivity|vm_compute; split; discriminate|simpl; lia].
  - intros H.
    apply (print_chars_empty_string 5%nat (MyPrinter_new "" 2 1)) in H;
      [simpl in H; lia|reflexivity|vm_compute; split; discriminate].
Defined.

(** *** What the invariants say of a single state *)

(** A worker prints (line 128) and moves the turn index (lines 131-133) only
    while [thread_ids[allowed_thread]] is its own identity. *)
Theorem printing_worker_is_allowed (s : string) (c n : Z) (sched : list action)
    (st : system) (t : thread_id) (c' : pc) :
  is_int n →
  exec sched (init_system (MyPrinter_new s c n)) = Some st →
  pcs st !! t = Some c' → c' = PPrint ∨ c' = PAdvance →
  allowed_id (printer st) = Some t.
Proof.
  intros Hn H Ht Hc.
  destruct (all_inv_exec _ _ _ _ _ Hn H) as ([Hown _] & _ & Hturn).
  assert (Hm : mutex_lock (printer st) = Some t).
  { apply (Hown _ _ Ht). by destruct Hc as [-> | ->]. }
  unfold turn_inv in Hturn. rewrite Hm, Ht in Hturn.
  destruct Hc as [-> | ->].
  - by destruct Hturn.
  - destruct Hturn as (q & evs0 & ev & _ & _ & Hal & Hpr).
    apply print_chars_inv in Hpr as [Hq _].
    change (allowed_id (printer st)) with (allowed_id (shared (printer st))).
    by rewrite Hq.
Qed.

Lemma printing_worker_is_allowed_witness :
  ∃ st, exec demo_midturn demo_init = Some st ∧
        allowed_id (printer st) = Some 5%nat.
Proof.
  destruct (exec demo_midturn demo_init) as [st|] eqn:E;
    [|vm_compute in E; discriminate E].
  exists st. split; [reflexivity|].
  assert (H5 : pcs st !! 5%nat = Some PAdvance).
  { vm_compute in E. apply (inj Some) in E. by subst st. }
  apply (printing_worker_is_allowed "ABCDEFGH" 3 2 demo_midturn st 5%nat PAdvance).
  - unfold is_int, INT_MIN, INT_MAX. lia.
  - exact E.
  - exact H5.
  - by right.
Defined.



(** The mutex is owned exactly by the worker that stands between the
    constructor of [unique_lock] (line 117) and [lock.unlock()] (line 140),
    [cv.wait] apart: a worker at the barrier, about to lock or blocked in
    [cv.wait] does not own it, the worker that unlocks does, and the owner is
    always a created worker. *)
Theorem mutex_discipline (s : string) (c n : Z) (sched : list action)
    (st : system) :
  exec sched (init_system (MyPrinter_new s c n)) = Some st →
  (∀ t c', pcs st !! t = Some c' →
     (holds_mutex c' = true ↔ mutex_lock (printer st) = Some t)) ∧
  (∀ t, mutex_lock (printer st) = Some t → is_Some (pcs st !! t)).
Proof. intros H. by apply lock_inv_exec in H. Qed.

Lemma mutex_discipline_witness :
  ∃ st, exec demo_midturn demo_init = Some st ∧
        mutex_lock (printer st) = Some 5%nat ∧
        pcs st !! 9%nat = Some PLock.
Proof.
  destruct (exec demo_midturn demo_init) as [st|] eqn:E;
    [|vm_compute in E; discriminate E].
  exists st. split; [reflexivity|].
  assert (H5 : pcs st !! 5%nat = Some PAdvance ∧ pcs st !! 9%nat = Some PLock).
  { vm_compute in E. apply (inj Some) in E. by subst st. }
  destruct H5 as [H5 H9].
  destruct (mutex_discipline "ABCDEFGH" 3 2 demo_midturn st E) as [Hown _].
  split; [|exact H9]. by apply (Hown 5%nat PAdvance).
Defined.

(** *** The table of [run] *)

(** The table built by [run] (lines 69-82), whatever the schedule: an
    identity about to be pushed at line 78 is not yet in the table, so the
    table never holds an identity twice; it holds created workers only, and
    never more than [thread_count] entries. *)
Theorem table_without_duplicates (s : string) (c n : Z) (sched : list action)
    (st : system) :
  is_int n →
  exec sched (init_system (MyPrinter_new s c n)) = Some st →
  NoDup (thread_ids (printer st)) ∧
  (∀ i t, at_main st = MPushId i t → t ∉ thread_ids (printer st)) ∧
  (∀ t, t ∈ thread_ids (printer st) → is_Some (pcs st !! t)) ∧
  Z.of_nat (List.length (thread_ids (printer st))) <= Z.max 0 n.
Proof.
  intros Hn H.
  destruct (barrier_inv_exec _ _ _ _ _ Hn H) as (_ & Hnd & Hin & _ & Hmain & _).
  apply exec_same_config in H as (_ & _ & Hcount). simpl in Hcount.
  rewrite Hcount in Hmain. unfold ids_size in Hmain.
  split_and!; [exact Hnd| |exact Hin|].
  - intros i t Hat. rewrite Hat in Hmain. by destruct Hmain as (_ & _ & ? & _).
  - destruct (at_main st); lia.
Qed.

Lemma table_without_duplicates_witness :
  ∃ st, exec demo_schedule demo_init = Some st ∧
        NoDup (thread_ids (printer st)) ∧
        Z.of_nat (List.length (thread_ids (printer st))) <= 2.
Proof.
  destruct (exec demo_schedule demo_init) as [st|] eqn:E;
    [|vm_compute in E; discriminate E].
  exists st. split; [reflexivity|].
  destruct (table_without_duplicates "ABCDEFGH" 3 2 demo_schedule st)
    as (Hnd & _ & _ & Hle).
  - unfold is_int, INT_MIN, INT_MAX. lia.
  - exact E.
  - split; [exact Hnd|]. lia.
Defined.

(** *** Chunks no longer than the string, in every schedule *)

Lemma turns_done_small p evs :
  small_chunks (at_start p) → (evs ≠ [] → table_ready (at_start p)) →
  turns_done p evs →
  next_char p
  = (Z.of_nat (List.length evs) * char_count p) mod str_length (str p) ∧
  cursor_inside p.
Proof.
  intros Hs Hr Hdone. unfold turns_done in Hdone.
  pose proof Hs as [Hc Hmax]. simpl in Hc, Hmax.
  assert (Hpos : 0 < str_length (str p)) by lia.
  assert (Hgoal : next_char p
    = (Z.of_nat (List.length evs) * char_count p) mod str_length (str p)).
  { destruct evs as [|ev evs].
    - simpl in Hdone. apply (inj Some) in Hdone.
      assert (Heq : at_start p = shared p) by (exact (f_equal fst Hdone)).
      change (next_char p) with (next_char (shared p)). rewrite <- Heq.
      simpl. by rewrite Z.mod_0_l by lia.
    - destruct (run_turns_small (List.length (ev :: evs)) (at_start p))
        as (q & evs' & Hrun & Hq); [by apply Hr|done| |].
      { unfold cursor_inside; simpl. lia. }
      rewrite Hrun in Hdone. apply (inj Some) in Hdone.
      assert (Hqp : q = shared p) by (exact (f_equal fst Hdone)).
      rewrite Hqp in Hq. simpl in Hq. by rewrite Z.add_0_l in Hq. }
  split; [done|]. unfold cursor_inside. rewrite Hgoal.
  apply Z.mod_pos_bound. lia.
Qed.

(** What is known of a run with chunks no longer than the string. *)
Lemma exec_small sched s c n st :
  is_int n → 1 <= n → 1 <= c <= str_length s → str_length s + c <= INT_MAX →
  exec sched (init_system (MyPrinter_new s c n)) = Some st →
  str (printer st) = s ∧ char_count (printer st) = c ∧
  small_chunks (at_start (printer st)) ∧
  (chunks (cout st) ≠ [] → table_ready (at_start (printer st))).
Proof.
  intros Hn Hn1 Hc Hmax H.
  destruct (exec_table_ready _ _ _ _ _ Hn Hn1 H) as [_ Hready].
  apply exec_same_config in H as (Hs & Hcc & _). simpl in Hs, Hcc.
  split_and!; try done.
  - unfold small_chunks; simpl. by rewrite Hs, Hcc.
  - intros Hne. apply Hready. by left.
Qed.

(** For [1 <= char_count <= str.length()] (and [str.length() + char_count]
    within [int]), whatever the schedule: whenever no worker stands between
    [print_chars] and the wrap of lines 136-137, [next_char] is [(k *
    char_count) mod str.length()], [k] being the number of chunks printed so
    far; so it is inside the string. *)
Theorem cursor_formula (s : string) (c n : Z) (sched : list action) (st : system) :
  is_int n → 1 <= n → 1 <= c <= str_length s → str_length s + c <= INT_MAX →
  exec sched (init_system (MyPrinter_new s c n)) = Some st →
  (∀ t, pcs st !! t ≠ Some PAdvance ∧ pcs st !! t ≠ Some PWrap) →
  next_char (printer st)
  = (Z.of_nat (List.length (chunks (cout st))) * c) mod str_length s ∧
  0 <= next_char (printer st) < str_length s.
Proof.
  intros Hn Hn1 Hc Hmax H Hquiet.
  destruct (exec_small _ _ _ _ _ Hn Hn1 Hc Hmax H) as (Hs & Hcc & Hsmall & Hr).
  destruct (all_inv_exec _ _ _ _ _ Hn H) as (_ & _ & Hturn).
  assert (Hdone : turns_done (printer st) (chunks (cout st))).
  { unfold turn_inv in Hturn.
    destruct (mutex_lock (printer st)) as [t|]; [|done].
    destruct (Hquiet t) as [Hq1 Hq2].
    destruct (pcs st !! t) as [[]|]; try done. by destruct Hturn. }
  destruct (turns_done_small _ _ Hsmall Hr Hdone) as [Hnext Hin].
  rewrite Hcc, Hs in Hnext. unfold cursor_inside in Hin. rewrite Hs in Hin.
  by split.
Qed.

Lemma cursor_formula_witness :
  ∃ st, exec demo_schedule demo_init = Some st ∧
        next_char (printer st) = (4 * 3) mod 8.
Proof.
  destruct (exec demo_schedule demo_init) as [st|] eqn:E;
    [|vm_compute in E; discriminate E].
  exists st. split; [reflexivity|].
  assert (Hst : List.length (chunks (cout st)) = 4%nat ∧
                mutex_lock (printer st) = None).
  { vm_compute in E. apply (inj Some) in E. by subst st. }
  destruct Hst as [Hlen Hfree].
  assert (Hquiet : ∀ t, pcs st !! t ≠ Some PAdvance ∧ pcs st !! t ≠ Some PWrap).
  { destruct (mutex_discipline "ABCDEFGH" 3 2 demo_schedule st E) as [Hown _].
    intros t. split; intros Ht; apply Hown in Ht; simpl in Ht;
      destruct Ht as [Ht _]; specialize (Ht eq_refl); congruence. }
  destruct (cursor_formula "ABCDEFGH" 3 2 demo_schedule st) as [Hnext _].
  - unfold is_int, INT_MIN, INT_MAX. lia.
  - lia.
  - vm_compute. split; discriminate.
  - vm_compute. discriminate.
  - exact E.
  - exact Hquiet.
  - rewrite Hlen in Hnext. exact Hnext.
Defined.

(** For the same chunk sizes, whatever the schedule: when a worker is about
    to call [print_chars], every index the call reads is inside the string,
    and the call is defined. *)
Theorem reads_inside_string (s : string) (c n : Z) (sched : list action)
    (st : system) (t : thread_id) :
  is_int n → 1 <= n → 1 <= c <= str_length s → str_length s + c <= INT_MAX →
  exec sched (init_system (MyPrinter_new s c n)) = Some st →
  pcs st !! t = Some PPrint →
  (∀ i, i ∈ read_indices (printer st) → 0 <= i < str_length s) ∧
  is_Some (step (AWorker t) st).
Proof.
  intros Hn Hn1 Hc Hmax H Ht.
  destruct (exec_small _ _ _ _ _ Hn Hn1 Hc Hmax H) as (Hs & Hcc & Hsmall & Hr).
  destruct (all_inv_exec _ _ _ _ _ Hn H) as ([Hown _] & _ & Hturn).
  assert (Hm : mutex_lock (printer st) = Some t) by (by apply (Hown _ _ Ht)).
  unfold turn_inv in Hturn. rewrite Hm, Ht in Hturn. destruct Hturn as [Hdone _].
  destruct (turns_done_small _ _ Hsmall Hr Hdone) as [_ Hin].
  assert (Hsmall' : small_chunks (printer st)) by exact Hsmall.
  split.
  - intros i Hi. rewrite <- Hs. by apply read_indices_in_range.
  - unfold step. rewrite Ht. simpl.
    destruct (print_chars_small t _ Hsmall' Hin) as [[p1 ev] Hpr].
    rewrite Hpr. simpl. by eexists.
Qed.

Lemma reads_inside_string_witness :
  ∃ st, exec (demo_spawn ++ replicate 3 (AWorker 5%nat)) demo_init = Some st ∧
        ∀ i, i ∈ read_indices (printer st) → 0 <= i < 8.
Proof.
  destruct (exec (demo_spawn ++ replicate 3 (AWorker 5%nat)) demo_init)
    as [st|] eqn:E; [|vm_compute in E; discriminate E].
  exists st. split; [reflexivity|].
  assert (H5 : pcs st !! 5%nat = Some PPrint).
  { vm_compute in E. apply (inj Some) in E. by subst st. }
  destruct (reads_inside_string "ABCDEFGH" 3 2
              (demo_spawn ++ replicate 3 (AWorker 5%nat)) st 5%nat) as [Hin _].
  - unfold is_int, INT_MIN, INT_MAX. lia.
  - lia.
  - vm_compute. split; discriminate.
  - vm_compute. discriminate.
  - exact E.
  - exact H5.
  - exact Hin.
Defined.

(** *** What a chunk holds *)

Lemma fmap_seqZ_shift (f : Z → Z) a n :
  (∀ i, 0 <= i < n → f i = a + i) → f <$> seqZ 0 n = seqZ a n.
Proof.
  intros Hf. apply list_eq. intros j. rewrite list_lookup_fmap.
  destruct (decide (Z.of_nat j < n)) as [Hlt|Hge].
  - rewrite !lookup_seqZ_lt by done. simpl. f_equal. rewrite Hf; lia.
  - rewrite !lookup_seqZ_ge by lia. done.
Qed.

(** The indices read are the cursor plus 0, 1, ..., taken modulo the
    length. *)
Lemma read_indices_mod p :
  small_chunks p → cursor_inside p →
  read_indices p
  = (λ i, (next_char p + i) mod str_length (str p)) <$> seqZ 0 (char_count p).
Proof.
  intros Hs Hv. rewrite read_indices_small by done.
  destruct Hs as [Hc Hmax]. unfold cursor_inside in Hv.
  set (L := str_length (str p)) in *. set (v := next_char p) in *.
  set (k := Z.min (L - v) (char_count p)).
  replace (char_count p) with (k + (char_count p - k)) at 2 by lia.
  rewrite seqZ_app by lia. rewrite fmap_app. f_equal.
  - symmetry. apply fmap_seqZ_shift. intros i Hi.
    apply Z.mod_small. lia.
  - symmetry. rewrite Z.add_0_l.
    destruct (decide (k = char_count p)) as [Hk|Hk].
    { by replace (char_count p - k) with 0 by lia. }
    assert (HkL : k = L - v) by lia.
    apply list_eq. intros j. rewrite list_lookup_fmap.
    destruct (decide (Z.of_nat j < char_count p - k)) as [Hlt|Hge].
    + rewrite !lookup_seqZ_lt by done. simpl. f_equal.
      symmetry. apply (Z.mod_unique_pos _ _ 1); lia.
    + rewrite !lookup_seqZ_ge by lia. done.
Qed.

Lemma get_default n s c :
  String.get n s = Some c → default zero (String.get n s) = c.
Proof. by intros ->. Qed.

(** The chunk of a turn is the circular read from the cursor. *)
Lemma turn_content t p q ev :
  small_chunks p → cursor_inside p → turn t p = Some (q, ev) →
  ∃ k, ev = EvChunk t k
              (string_of_list_ascii
                 (circular_read (str p) (next_char p) (char_count p))).
Proof.
  intros Hs Hv H. apply turn_inv_eq in H as (_ & cs & Hcs & ->).
  eexists. f_equal. f_equal.
  apply mapM_Some in Hcs. unfold circular_read.
  rewrite read_indices_mod in Hcs by done.
  apply Forall2_fmap_l in Hcs.
  apply list_eq. intros j. rewrite list_lookup_fmap.
  destruct (seqZ 0 (char_count p) !! j) as [i|] eqn:Ei; simpl.
  - destruct (Forall2_lookup_l _ _ _ _ _ Hcs Ei) as (y & Hy & Hstr).
    rewrite Hy. f_equal. simpl in Hstr.
    apply lookup_seqZ in Ei as [-> Hj].
    destruct Hs as [Hc Hmax]. unfold cursor_inside in Hv.
    pose proof (Z.mod_pos_bound (next_char p + (0 + Z.of_nat j))
                  (str_length (str p)) ltac:(lia)) as Hb.
    unfold str_at in Hstr. unfold INT_MAX in Hmax.
    rewrite to_size_t_id in Hstr by lia.
    destruct (Z.ltb_spec ((next_char p + (0 + Z.of_nat j)) mod str_length (str p))
                (str_length (str p))); [|lia].
    symmetry. by apply get_default.
  - apply Forall2_length in Hcs. apply lookup_ge_None.
    apply lookup_ge_None in Ei. lia.
Qed.

Lemma circular_read_congr s v v' c :
  v mod str_length s = v' mod str_length s →
  circular_read s v c = circular_read s v' c.
Proof.
  intros Hv. unfold circular_read. apply list_fmap_ext. intros j i _.
  f_equal. f_equal. f_equal.
  rewrite <- (Zplus_mod_idemp_l v), <- (Zplus_mod_idemp_l v'). by rewrite Hv.
Qed.

Lemma run_turns_content k p q evs :
  table_ready p → small_chunks p → cursor_inside p →
  run_turns k p = Some (q, evs) →
  ∀ j ev, evs !! j = Some ev →
    ∃ t i, ev = EvChunk t i
                  (string_of_list_ascii
                     (circular_read (str p)
                        (next_char p + Z.of_nat j * char_count p)
                        (char_count p))).
Proof.
  revert p q evs. induction k as [|k IH]; intros p q evs Hr Hs Hv H j ev Hev.
  - by simplify_eq/=.
  - change (run_turns (S k) p) with
      (self ← allowed_id p; '(p1, ev) ← turn self p;
       '(p2, evs) ← run_turns k p1; Some (p2, ev :: evs)) in H.
    destruct (allowed_id p) as [self|] eqn:Es; [|done]. simpl in H.
    destruct (turn self p) as [[p1 ev1]|] eqn:E1; [|done]. simpl in H.
    destruct (run_turns k p1) as [[p2 evs2]|] eqn:E2; [|done].
    simplify_eq/=.
    destruct (turn_small self p Hs Hv) as (p1' & ev' & Hturn & Hnext & Hs1 & Hv1).
    rewrite E1 in Hturn. apply (inj Some) in Hturn.
    assert (p1' = p1) as -> by (exact (eq_sym (f_equal fst Hturn))).
    destruct (turn_rotation _ _ _ _ Hr Es E1) as (Hr1 & (Hstr & Hcc & _) & _).
    destruct j as [|j]; simpl in Hev.
    + simplify_eq. destruct (turn_content _ _ _ _ Hs Hv E1) as [i Hi].
      exists self, i. by rewrite Z.mul_0_l, Z.add_0_r.
    + destruct (IH _ _ _ Hr1 Hs1 Hv1 E2 _ _ Hev) as (t & i & ->).
      exists t, i. rewrite Hstr, Hcc. f_equal. f_equal.
      apply circular_read_congr. rewrite Hnext.
      rewrite Zplus_mod_idemp_l. f_equal. lia.
Qed.

(** For [1 <= char_count <= str.length()], whatever the schedule: the
    [j]-th chunk printed is the [char_count] characters of [str] from
    position [j * char_count] on, going round the string. *)
Theorem chunk_content (s : string) (c n : Z) (sched : list action) (st : system)
    (j : nat) (ev : event) :
  is_int n → 1 <= n → 1 <= c <= str_length s → str_length s + c <= INT_MAX →
  exec sched (init_system (MyPrinter_new s c n)) = Some st →
  chunks (cout st) !! j = Some ev →
  ∃ t i, ev = EvChunk t i
                (string_of_list_ascii (circular_read s (Z.of_nat j * c) c)).
Proof.
  intros Hn Hn1 Hc Hmax H Hev.
  destruct (exec_small _ _ _ _ _ Hn Hn1 Hc Hmax H) as (Hs & Hcc & Hsmall & Hr).
  destruct (exec_refines_turns _ _ _ _ _ Hn H) as [q Hrun].
  assert (Hne : chunks (cout st) ≠ []) by (by intros Heq; rewrite Heq in Hev).
  assert (Hv : cursor_inside (at_start (printer st))).
  { destruct Hsmall as [? _]. unfold cursor_inside; simpl in *. lia. }
  destruct (run_turns_content _ _ _ _ (Hr Hne) Hsmall Hv Hrun _ _ Hev)
    as (t & i & ->).
  exists t, i. simpl. by rewrite Hs, Hcc, Z.add_0_l.
Qed.

Lemma chunk_content_witness :
  ∃ st, exec demo_schedule demo_init = Some st ∧
        chunks (cout st) !! 2%nat = Some (EvChunk 5%nat 0 "GHA") ∧
        string_of_list_ascii (circular_read "ABCDEFGH" (2 * 3) 3) = "GHA"%string.
Proof.
  destruct (exec demo_schedule demo_init) as [st|] eqn:E;
    [|vm_compute in E; discriminate E].
  exists st. split; [reflexivity|].
  assert (H2 : chunks (cout st) !! 2%nat = Some (EvChunk 5%nat 0 "GHA")).
  { vm_compute in E. apply (inj Some) in E. by subst st. }
  split; [exact H2|].
  destruct (chunk_content "ABCDEFGH" 3 2 demo_schedule st 2
              (EvChunk 5%nat 0 "GHA")) as (t & i & Heq).
  - unfold is_int, INT_MIN, INT_MAX. lia.
  - lia.
  - vm_compute. split; discriminate.
  - vm_compute. discriminate.
  - exact E.
  - exact H2.
  - clear E H2. by injection Heq.
Defined.

(** *** The order of the lines *)





(** *** Who writes the shared fields *)

(** Whatever the schedule, a step that changes [next_char] or
    [allowed_thread], or prints a chunk, is a step of the worker that owns
    the mutex, taken inside its turn (lines 128-137). *)
Theorem shared_state_written_under_lock (s : string) (c n : Z)
    (sched : list action) (st st' : system) (a : action) :
  exec sched (init_system (MyPrinter_new s c n)) = Some st →
  step a st = Some st' →
  next_char (printer st') ≠ next_char (printer st) ∨
  allowed_thread (printer st') ≠ allowed_thread (printer st) ∨
  chunks (cout st') ≠ chunks (cout st) →
  ∃ t c', a = AWorker t ∧ pcs st !! t = Some c' ∧ in_turn c' = true ∧
          mutex_lock (printer st) = Some t.
Proof.
  intros H Hst Hchg.
  apply lock_inv_exec in H as [Hown _]; [|done].
  destruct a; unfold step in Hst.
  1,2: exfalso; step_inv Hst; simpl in Hchg;
       rewrite ?chunks_snoc, ?app_nil_r in Hchg; simpl in Hchg;
       rewrite ?app_nil_r in Hchg; by destruct Hchg as [?|[?|?]].
  destruct (pcs st !! t) as [c'|] eqn:Ht; [|done]. simpl in Hst.
  exists t, c'.
  assert (Hin : in_turn c' = true).
  { destruct c'; try done; exfalso; step_inv Hst; simpl in Hchg;
      by destruct Hchg as [?|[?|?]]. }
  split_and!; try done.
  apply (Hown _ _ Ht). by destruct c'.
Qed.

Lemma shared_state_written_under_lock_witness :
  ∃ st st', exec demo_midturn demo_init = Some st ∧
            step (AWorker 5%nat) st = Some st' ∧
            allowed_thread (printer st') ≠ allowed_thread (printer st) ∧
            mutex_lock (printer st) = Some 5%nat.
Proof.
  destruct (exec demo_midturn demo_init) as [st|] eqn:E;
    [|vm_compute in E; discriminate E].
  destruct (step (AWorker 5%nat) st) as [st'|] eqn:E'.
  2:{ vm_compute in E. apply (inj Some) in E. subst st.
      vm_compute in E'. discriminate E'. }
  assert (Hchg : allowed_thread (printer st') ≠ allowed_thread (printer st)).
  { vm_compute in E. apply (inj Some) in E. subst st.
    vm_compute in E'. apply (inj Some) in E'. subst st'.
    vm_compute. discriminate. }
  exists st, st'. split_and!; [reflexivity|exact E'|exact Hchg|].
  destruct (shared_state_written_under_lock "ABCDEFGH" 3 2 demo_midturn
              st st' (AWorker 5%nat) E E') as (t & c' & Ha & _ & _ & Hm).
  - right. left. exact Hchg.
  - injection Ha as <-. exact Hm.
Defined.

(** With a worker count of 0 or less, negative counts included, no schedule
    creates a thread or prints a line, and the two steps of [main] that skip
    both loops of [run] end with status 0. *)
Theorem run_without_workers (s : string) (c n : Z) (sched : list action)
    (st : system) :
  n <= 0 →
  exec sched (init_system (MyPrinter_new s c n)) = Some st →
  pcs st = ∅ ∧ cout st = [] ∧ printer st = MyPrinter_new s c n ∧
  ∃ st', exec [AMain; AMain] (init_system (MyPrinter_new s c n)) = Some st' ∧
         at_main st' = MReturned 0.
Proof.
  intros Hn H. apply idle_exec in H as (Hp & Hpcs & Hout & _); [|done].
  split_and!; try done.
  simpl. destruct (Z.ltb_spec 0 n) as [?|_]; [lia|]. simpl.
  destruct (Z.ltb_spec 0 n) as [?|_]; [lia|]. by eexists.
Qed.

Lemma run_without_workers_witness :
  ∃ st, exec [AMain; AMain] (init_system (MyPrinter_new "AB" 2 (-3))) = Some st ∧
        pcs st = ∅ ∧ cout st = [].
Proof.
  destruct (exec [AMain; AMain] (init_system (MyPrinter_new "AB" 2 (-3))))
    as [st|] eqn:E; [|vm_compute in E; discriminate E].
  exists st. split; [reflexivity|].
  destruct (run_without_workers "AB" 2 (-3) [AMain; AMain] st) as (? & ? & _).
  - lia.
  - exact E.
  - by split.
Defined.

End further.
